(** * The straight-dope recurrent-network notebooks, embedded in Rocq

    The development follows [P05-C01-simple-rnn.ipynb] (which also carries
    the GRU notebook and the gluon language-model notebook).  Framework
    tensors are modelled as a shape with row-major data; floating-point
    scalars are idealised as exact rationals. *)

From Stdlib Require Import Ascii QArith Qcanon.
From stdpp Require Import gmap strings list.

Open Scope nat_scope.

(** ** Exceptions

    An exception records who raised it: a statement of the notebooks
    ([assert], [raise]) or the Python runtime and the tensor framework. *)

Module Errors.

Inductive origin := Repository | Framework.

Record exn := Exn { raised_by : origin; exn_class : string }.

Inductive result (A : Type) :=
| Ok (a : A)
| Raise (e : exn).
Arguments Ok {A} _.
Arguments Raise {A} _.

Definition result_bind {A B} (r : result A) (k : A → result B) : result B :=
  match r with
  | Ok a => k a
  | Raise e => Raise e
  end.

(** A framework call that fails raises the framework's exception. *)
Definition framework {A} (class : string) (o : option A) : result A :=
  match o with
  | Some a => Ok a
  | None => Raise (Exn Framework class)
  end.

Definition AssertionError : exn := Exn Repository "AssertionError".

(** What a call into the framework or the Python runtime does: it returns
    a value or raises an exception of some class. *)
Inductive outcome (A : Type) :=
| Returns (a : A)
| Throws (class : string).
Arguments Returns {A} _.
Arguments Throws {A} _.

(** The notebooks make the call and do not catch what it raises. *)
Definition call {A} (o : outcome A) : result A :=
  match o with
  | Returns a => Ok a
  | Throws class => Raise (Exn Framework class)
  end.

(** A computation whose only failures are exceptions of the framework. *)
Definition from_framework {A} (r : result A) : Prop :=
  ∀ e, r = Raise e → raised_by e = Framework.

End Errors.

Notation "x ←! r ; k" := (Errors.result_bind r (λ x, k))
  (at level 20, r at level 100, k at level 200, right associativity,
   only parsing).
Notation "' pat ←! r ; k" :=
  (Errors.result_bind r (λ x, match x with pat => k end))
  (at level 20, pat pattern, r at level 100, k at level 200,
   right associativity, only parsing).

(** ** Framework tensors

    An [NDArray] is a shape together with its elements in row-major order.
    Only the framework calls the notebooks make are modelled; a call the
    framework rejects (index or slice outside the shape, element count
    changed by a reshape) yields [None]. *)

Module Tensor.

Record NDArray (A : Type) := mkNDArray {
  shape : list nat;
  data : list A
}.
Arguments mkNDArray {A} _ _.
Arguments shape {A} _.
Arguments data {A} _.

(** Number of elements of a shape. *)
Definition numel (shp : list nat) : nat := foldr Nat.mul 1 shp.

(** [nd.zeros(shape=shp)] *)
Definition zeros {A} (zero : A) (shp : list nat) : NDArray A :=
  mkNDArray shp (replicate (numel shp) zero).

(** [nd.array(l)] of a flat Python list *)
Definition array1 {A} (l : list A) : NDArray A :=
  mkNDArray [length l] l.

(** [a[i, j] = v] on a two-dimensional array *)
Definition setitem2 {A} (a : NDArray A) (i j : nat) (v : A)
  : option (NDArray A) :=
  match shape a with
  | [r; c] =>
      if decide (i < r ∧ j < c)
      then Some (mkNDArray [r; c] (<[i * c + j := v]> (data a)))
      else None
  | _ => None
  end.

(** [a[i]]: the [i]-th entry along the first axis *)
Definition getitem {A} (a : NDArray A) (i : nat) : option (NDArray A) :=
  match shape a with
  | r :: rest =>
      if decide (i < r)
      then Some (mkNDArray rest
                   (take (numel rest) (drop (i * numel rest) (data a))))
      else None
  | [] => None
  end.

(** [a[start:stop]] along the first axis *)
Definition slice {A} (a : NDArray A) (start stop : nat)
  : option (NDArray A) :=
  match shape a with
  | r :: rest =>
      if decide (start ≤ stop ∧ stop ≤ r)
      then Some (mkNDArray ((stop - start) :: rest)
                   (take ((stop - start) * numel rest)
                      (drop (start * numel rest) (data a))))
      else None
  | [] => None
  end.

(** [a.reshape(shp)] for a shape without wildcard *)
Definition reshape {A} (a : NDArray A) (shp : list nat)
  : option (NDArray A) :=
  if decide (numel shp = length (data a))
  then Some (mkNDArray shp (data a)) else None.

(** [a.reshape((-1,))] *)
Definition flatten {A} (a : NDArray A) : NDArray A :=
  mkNDArray [length (data a)] (data a).

(** [a.T] of a two-dimensional array *)
Definition transpose {A} (a : NDArray A) : option (NDArray A) :=
  match shape a with
  | [r; c] =>
      Some (mkNDArray [c; r]
              (j ← seq 0 c; i ← seq 0 r;
               option_list (data a !! (i * c + j))))
  | _ => None
  end.

(** Element [(i, j)] of a two-dimensional array *)
Definition at2 {A} (a : NDArray A) (i j : nat) : option A :=
  match shape a with
  | [r; c] => if decide (i < r ∧ j < c) then data a !! (i * c + j) else None
  | _ => None
  end.

(** Position of the first maximum of [l], scanning from position [i] with
    the running maximum [best] found at [besti]. *)
Fixpoint argmax_from (best : Qc) (besti i : nat) (l : list Qc) : nat :=
  match l with
  | [] => besti
  | x :: l' =>
      match (best ?= x)%Qc with
      | Lt => argmax_from x i (S i) l'
      | _ => argmax_from best besti (S i) l'
      end
  end.

(** [int(nd.argmax(v, axis=0).asscalar())] of a one-dimensional array *)
Definition argmax (v : NDArray Qc) : option nat :=
  match shape v, data v with
  | [_], x :: l => Some (argmax_from x 0 1 l)
  | _, _ => None
  end.

(** A Python integer used as a floating-point number. *)
Definition Qc_of_nat (n : nat) : Qc := Q2Qc (inject_Z (Z.of_nat n)).

End Tensor.

(** ** Word vocabulary of the gluon notebook: [class Dictionary] *)

Module Vocabulary.

Record Dictionary := mkDictionary {
  word2idx : gmap string nat;
  idx2word : list string
}.

(** [Dictionary.__init__] *)
Definition Dictionary_init : Dictionary :=
  {| word2idx := ∅; idx2word := [] |}.

(** [Dictionary.add_word]: the returned index is the subscript
    [self.word2idx[word]], a [KeyError] being [None]. *)
Definition add_word (word : string) (self : Dictionary)
  : option nat * Dictionary :=
  let self' :=
    if decide (word ∈ dom (word2idx self)) then self
    else
      let idx2word' := idx2word self ++ [word] in
      {| word2idx := <[word := length idx2word' - 1]> (word2idx self);
         idx2word := idx2word' |} in
  (word2idx self' !! word, self').

(** [Dictionary.__len__] *)
Definition Dictionary_len (self : Dictionary) : nat :=
  length (idx2word self).

(** A sequence of [add_word] calls, results dropped (as in [tokenize]). *)
Definition add_words (ws : list string) (self : Dictionary) : Dictionary :=
  foldl (λ d w, (add_word w d).2) self ws.

(** The two tables describe the same finite bijection. *)
Definition tables_agree (d : Dictionary) : Prop :=
  ∀ w i, word2idx d !! w = Some i ↔ idx2word d !! i = Some w.


(** [class Corpus].  The file system maps a path that exists to its file:
    either one that reads as lines, each line given as the words
    [line.split()] yields, or one that exists but that [open] or the
    iteration over it rejects (a directory, a file without read
    permission, bytes that do not decode) with an exception of the given
    class. *)
Inductive file :=
| Readable (lines : list (list string))
| Unreadable (class : string).

Record Corpus := mkCorpus {
  dictionary : Dictionary;
  train : Tensor.NDArray nat;
  valid : Tensor.NDArray nat;
  test : Tensor.NDArray nat
}.

(** The words of a file in reading order, each line closed by ['<eos>']. *)
Definition file_words (lines : list (list string)) : list string :=
  lines ≫= λ line, line ++ ["<eos>"].

(** [Corpus.tokenize(path)], acting on [self.dictionary]. *)
Definition tokenize (fs : gmap string file) (path : string)
  (self : Dictionary) : Errors.result (Tensor.NDArray nat * Dictionary) :=
  match fs !! path with
  | None => Errors.Raise Errors.AssertionError
  | Some (Unreadable class) => Errors.call (Errors.Throws class)
  | Some (Readable lines) =>
      (* Add words to the dictionary *)
      let '(tokens, self) :=
        foldl (λ '(tokens, d) line,
                 let words := line ++ ["<eos>"] in
                 (tokens + length words, add_words words d))
              (0, self) lines in
      (* Tokenize file content *)
      '(ids, _) ←!
        foldl (λ acc word,
                 '(ids, token) ←! acc;
                 idx ←! Errors.framework "KeyError" (word2idx self !! word);
                 ids ←! Errors.framework "IndexError"
                          (if decide (token < length ids)
                           then Some (<[token := idx]> ids) else None);
                 Errors.Ok (ids, token + 1))
              (Errors.Ok (replicate tokens 0, 0)) (file_words lines);
      Errors.Ok (Tensor.array1 ids, self)
  end.

(** [Corpus.__init__(path)] *)
Definition Corpus_init (fs : gmap string file)
  (path : string) : Errors.result Corpus :=
  let d := Dictionary_init in
  '(train, d) ←! tokenize fs (path +:+ "train.txt") d;
  '(valid, d) ←! tokenize fs (path +:+ "valid.txt") d;
  '(test, d) ←! tokenize fs (path +:+ "test.txt") d;
  Errors.Ok (mkCorpus d train valid test).

End Vocabulary.

(** ** The from-scratch character notebooks: encoding and decoding *)

Module CharCodec.
Import Tensor.

(** [character_dict = {}; for e, char in enumerate(character_list):
    character_dict[char] = e] *)
Definition character_dict (character_list : list ascii) : gmap ascii nat :=
  foldl (λ d ec, <[ec.2 := ec.1]> d) ∅ (imap pair character_list).

(** [[character_dict[char] for char in text]] *)
Definition numerical (character_list : list ascii) (text : string)
  : option (list nat) :=
  mapM (λ char, character_dict character_list !! char)
       (String.list_ascii_of_string text).

(** [one_hots(numerical_list, vocab_size)] *)
Definition one_hots (numerical_list : list nat) (vocab_size : nat)
  : option (list (NDArray Qc)) :=
  foldl (λ result idx,
           res ← result;
           array ← setitem2 (zeros 0%Qc [1; vocab_size]) 0 idx 1%Qc;
           Some (res ++ [array]))
        (Some []) numerical_list.

(** [textify(vector_list)] *)
Definition textify (character_list : list ascii)
  (vector_list : list (NDArray Qc)) : option string :=
  foldl (λ result vector,
           res ← result;
           vector0 ← getitem vector 0;
           k ← argmax vector0;
           c ← character_list !! k;
           Some (res +:+ String c EmptyString))
        (Some EmptyString) vector_list.

(** The array one iteration of [one_hots] appends for an index in range
    (used to state what the loop computes). *)
Definition one_hot_row (vocab_size idx : nat) : NDArray Qc :=
  mkNDArray [1; vocab_size] (<[idx := 1%Qc]> (replicate vocab_size 0%Qc)).

(** An array [textify] can decode: at least one row, and a row of at
    least one and at most [len(character_list)] entries. *)
Definition decodable (character_list : list ascii) (v : NDArray Qc) : Prop :=
  ∃ r c, shape v = [r; c] ∧ 1 ≤ r ∧ 1 ≤ c ∧ c ≤ length character_list
         ∧ length (data v) = r * c.

End CharCodec.


(** ** The from-scratch character notebooks: sequences and batches *)

Module DataPrep.
Import Tensor CharCodec.

(** [l[start:stop]] on a Python list, for bounds that are not negative *)
Definition py_slice {A} (l : list A) (start stop : nat) : list A :=
  take (stop - start) (drop start l).

(** [int(np.floor((len(time_numerical)-1)/seq_length))] *)
Definition num_sequences (time_numerical : list nat) (seq_length : nat)
  : nat :=
  (length time_numerical - 1) / seq_length.

(** [dataset = [one_hots(time_numerical[i*seq_length:(i+1)*seq_length])
    for i in range(...)]]; the division raises for a zero [seq_length]. *)
Definition dataset (time_numerical : list nat) (vocab_size seq_length : nat)
  : option (list (list (NDArray Qc))) :=
  if decide (seq_length = 0) then None
  else
    mapM (λ i, one_hots
                 (py_slice time_numerical (i * seq_length)
                    ((i + 1) * seq_length))
                 vocab_size)
         (seq 0 (num_sequences time_numerical seq_length)).

(** [labels = [one_hots(time_numerical[i*seq_length+1:(i+1)*seq_length+1])
    for i in range(...)]] *)
Definition labels (time_numerical : list nat) (vocab_size seq_length : nat)
  : option (list (list (NDArray Qc))) :=
  if decide (seq_length = 0) then None
  else
    mapM (λ i, one_hots
                 (py_slice time_numerical (i * seq_length + 1)
                    ((i + 1) * seq_length + 1))
                 vocab_size)
         (seq 0 (num_sequences time_numerical seq_length)).

(** [sequences_per_batch_row = int(np.floor(len(dataset))/batch_size)];
    the division raises for a zero [batch_size]. *)
Definition sequences_per_batch_row {A} (dataset : list A) (batch_size : nat)
  : option nat :=
  if decide (batch_size = 0) then None
  else Some (length dataset / batch_size).

(** [[l[i*n : i*n + n] for i in range(batch_size)]], the comprehension
    that builds [data_rows] from [dataset] and [label_rows] from
    [labels]. *)
Definition batch_rows {A} (l : list A) (n batch_size : nat)
  : list (list A) :=
  (λ i, py_slice l (i * n) (i * n + n)) <$> seq 0 batch_size.

(** [a.reshape((1,-1))] *)
Definition reshape_row {A} (a : NDArray A) : NDArray A :=
  mkNDArray [1; length (data a)] (data a).

(** [nd.concatenate(arrays, axis=0)]: the arrays agree on every dimension
    but the first. *)
Definition concatenate {A} (arrays : list (NDArray A))
  : option (NDArray A) :=
  first ← head arrays;
  match shape first with
  | _ :: rest =>
      rows ← mapM (λ a, match shape a with
                        | r :: rest' =>
                            if decide (rest' = rest) then Some r else None
                        | [] => None
                        end) arrays;
      Some (mkNDArray (sum_list rows :: rest) (arrays ≫= data))
  | [] => None
  end.

(** [stack_the_datasets(datasets)] *)
Definition stack_the_datasets {A} (datasets : list (list (list (NDArray A))))
  : option (list (list (NDArray A))) :=
  datasets0 ← head datasets;
  (* iterate over the sequences *)
  mapM (λ s,
          datasets00 ← datasets0 !! 0;
          (* iterate over the elements of the sequence *)
          mapM (λ elem,
                  rows ← mapM (λ ds, sequence ← ds !! s;
                                     array ← sequence !! elem;
                                     Some (reshape_row array))
                              datasets;
                  concatenate rows)
               (seq 0 (length datasets00)))
       (seq 0 (length datasets0)).

(** [training_data = stack_the_datasets(data_rows)] *)
Definition training_data (time_numerical : list nat)
  (vocab_size seq_length batch_size : nat)
  : option (list (list (NDArray Qc))) :=
  ds ← dataset time_numerical vocab_size seq_length;
  n ← sequences_per_batch_row ds batch_size;
  stack_the_datasets (batch_rows ds n batch_size).

(** [training_labels = stack_the_datasets(label_rows)]; the label rows are
    cut with the [sequences_per_batch_row] computed from [dataset]. *)
Definition training_labels (time_numerical : list nat)
  (vocab_size seq_length batch_size : nat)
  : option (list (list (NDArray Qc))) :=
  ds ← dataset time_numerical vocab_size seq_length;
  n ← sequences_per_batch_row ds batch_size;
  ls ← labels time_numerical vocab_size seq_length;
  stack_the_datasets (batch_rows ls n batch_size).

(** Every dataset has [S] sequences of [E] arrays of [V] entries each. *)
Definition rectangular {A} (datasets : list (list (list (NDArray A))))
  (S E V : nat) : Prop :=
  Forall (λ ds, length ds = S
                ∧ Forall (λ sequence,
                            length sequence = E
                            ∧ Forall (λ a, length (data a) = V) sequence)
                         ds)
         datasets.

End DataPrep.

(** ** The from-scratch recurrent networks

    The float tensors of the framework and its numerical kernels are kept
    abstract: the arithmetic the notebooks combine in [NDArith], the
    functions they only call in [NDFun]. *)

Module CharRNN.

Class NDArith (T : Type) := {
  nd_dot : T → T → T;            (* nd.dot(a, b) *)
  nd_add : T → T → T;            (* a + b *)
  nd_sub : T → T → T;            (* a - b *)
  nd_mul : T → T → T;            (* a * b, elementwise *)
  nd_div : T → T → T;            (* a / b *)
  nd_neg : T → T;                (* - a *)
  nd_div_scalar : T → Qc → T;    (* a / c for a Python number c *)
  nd_rsub_scalar : Qc → T → T;   (* c - a *)
  nd_mul_scalar : Qc → T → T;    (* c * a *)
  nd_array0 : T                  (* nd.array([0.]) *)
}.

Class NDFun (T : Type) := {
  nd_tanh : T → T;
  nd_sigmoid : T → T;
  nd_exp : T → T;
  nd_log : T → T;
  nd_max : T → T;                (* nd.max(a) *)
  nd_mean : T → T;               (* nd.mean(a) *)
  nd_sum_rows : T → T;           (* nd.sum(a, axis=0, exclude=True) *)
  nd_reshape_col : T → T         (* a.reshape((-1,1)) *)
}.

(** Scalars as tensors: the arithmetic is that of the rationals. *)
#[export] Instance Qc_arith : NDArith Qc := {|
  nd_dot := Qcmult; nd_add := Qcplus; nd_sub := Qcminus; nd_mul := Qcmult;
  nd_div := Qcdiv; nd_neg := Qcopp;
  nd_div_scalar := Qcdiv; nd_rsub_scalar := Qcminus; nd_mul_scalar := Qcmult;
  nd_array0 := 0%Qc
|}.

(** The framework's check of a call's arguments (shapes, types, device):
    [nd_check op args] is the class of the exception the call raises, if
    it raises.  The forward passes take the kernels on arguments the
    framework accepts; the loss makes every call through the check. *)
Class NDCheck (T : Type) := nd_check : string → list T → option string.

Section Networks.
Context {T : Type} `{NDArith T} `{NDFun T}.

(** [softmax(y_linear, temperature)] *)
Definition softmax (y_linear : T) (temperature : Qc) : T :=
  let lin := nd_div_scalar (nd_sub y_linear (nd_max y_linear)) temperature in
  let exp := nd_exp lin in
  let partition := nd_reshape_col (nd_sum_rows exp) in
  nd_div exp partition.

End Networks.

Section Loss.
Context {T : Type} `{NDArith T} `{NDFun T} `{NDCheck T}.

(** [nd_call op args value]: the call [op(args)] raises what the
    framework's check of its arguments says, and returns [value], the
    kernel's result, when the check accepts them. *)
Definition nd_call (op : string) (args : list T) (value : T)
  : Errors.result T :=
  match nd_check op args with
  | Some class => Errors.call (Errors.Throws class)
  | None => Errors.Ok value
  end.

(** [cross_entropy(yhat, y)] *)
Definition cross_entropy (yhat y : T) : Errors.result T :=
  log_yhat ←! nd_call "log" [yhat] (nd_log yhat);
  product ←! nd_call "mul" [y; log_yhat] (nd_mul y log_yhat);
  sums ←! nd_call "sum" [product] (nd_sum_rows product);
  mean ←! nd_call "mean" [sums] (nd_mean sums);
  nd_call "neg" [mean] (nd_neg mean).

(** [average_ce_loss(outputs, labels)] *)
Definition average_ce_loss (outputs labels : list T) : Errors.result T :=
  if decide (length outputs = length labels) then
    total_loss ←!
      foldl (λ total_loss ol,
               total_loss ←! total_loss;
               loss ←! cross_entropy ol.1 ol.2;
               nd_call "add" [total_loss; loss] (nd_add total_loss loss))
            (nd_call "array" [] nd_array0) (zip outputs labels);
    nd_call "div_scalar" [total_loss]
      (nd_div_scalar total_loss (Tensor.Qc_of_nat (length outputs)))
  else Errors.Raise Errors.AssertionError.

End Loss.

(** A parameter array with the gradient buffer [attach_grad] gives it. *)
Record Param (T : Type) := mkParam { value : T; grad : T }.
Arguments mkParam {T} _ _.
Arguments value {T} _.
Arguments grad {T} _.

Section Optimizer.
Context {T : Type} `{NDArith T}.

(** One iteration of [SGD]: [param[:] = param - lr * param.grad] writes
    into the array [param] names. *)
Definition sgd_update (lr : Qc) (param : Param T) : Param T :=
  mkParam (nd_sub (value param) (nd_mul_scalar lr (grad param)))
          (grad param).

(** [SGD(params, lr)].  The list holds references to arrays; the store
    maps each array's identity to its contents. *)
Definition SGD (params : list nat) (lr : Qc) (store : gmap nat (Param T))
  : gmap nat (Param T) :=
  foldl (λ st param, alter (sgd_update lr) param st) store params.

(** What a call of [SGD] is to achieve: every listed parameter holds its
    previous value minus [lr] times its gradient, gradients and all other
    arrays are as before. *)
Definition SGD_postcondition (params : list nat) (lr : Qc)
  (store store' : gmap nat (Param T)) : Prop :=
  (∀ r, r ∈ params → store' !! r = sgd_update lr <$> store !! r)
  ∧ (∀ r, r ∉ params → store' !! r = store !! r).

(** The epoch loop of the two training cells.  [backward batch state]
    stands for the recorded forward pass ([simple_rnn] or [gru_rnn] on the
    batch, from the hidden state the previous batch left), the loss and
    [loss.backward()], which fills the gradient buffers; [zero_state] is
    [nd.zeros(shape=(batch_size, num_hidden))].  The moving average of the
    loss, the sampling and the printing leave the parameters and the rate
    as they are. *)
Section Loop.
Context {Batch State : Type}.
Variable backward :
  Batch → State → gmap nat (Param T) → State * gmap nat (Param T).
Variable zero_state : State.
Variable params : list nat.
Variable training_data : list Batch.

Definition train_batches (learning_rate : Qc) (store : gmap nat (Param T))
  : gmap nat (Param T) :=
  (foldl (λ '(state, st) batch,
            let '(state, st) := backward batch state st in
            (state, SGD params learning_rate st))
         (zero_state, store) training_data).2.

Definition training_epoch (st : Qc * gmap nat (Param T)) (e : nat)
  : Qc * gmap nat (Param T) :=
  let learning_rate :=
    if decide ((e + 1) mod 100 = 0) then (st.1 / 2)%Qc else st.1 in
  (learning_rate, train_batches learning_rate st.2).

Definition training_loop (epochs : nat) (learning_rate : Qc)
  (store : gmap nat (Param T)) : Qc * gmap nat (Param T) :=
  foldl training_epoch (learning_rate, store) (seq 0 epochs).

End Loop.
End Optimizer.

End CharRNN.

(** *** The simple recurrent network *)

Module SimpleRNN.
Import CharRNN.

Section Network.
Context {T : Type} `{NDArith T} `{NDFun T}.

(** Parameters of the simple recurrent network. *)
Record params := mkParams {
  Wxh : T; Whh : T; bh : T; Why : T; b_y : T
}.

(** [simple_rnn(inputs, state, temperature)] *)
Definition simple_rnn (p : params) (inputs : list T) (state : T)
  (temperature : Qc) : list T * T :=
  foldl (λ '(outputs, h) X,
           let h_linear :=
             nd_add (nd_add (nd_dot X (Wxh p)) (nd_dot h (Whh p))) (bh p) in
           let h := nd_tanh h_linear in
           let yhat_linear := nd_add (nd_dot h (Why p)) (b_y p) in
           let yhat := softmax yhat_linear temperature in
           (outputs ++ [yhat], h))
        ([], state) inputs.

(** Specification, from the recurrence equations (not from the loop):
    [h_t], the hidden state after [t] inputs, with [h_0] the initial
    state and [h_t = tanh(X_t Wxh + h_(t-1) Whh + bh)]. *)
Fixpoint rnn_hidden (p : params) (inputs : list T) (state : T) (t : nat)
  : T :=
  match t with
  | 0 => state
  | S t' =>
      let h_prev := rnn_hidden p inputs state t' in
      match inputs !! t' with
      | Some X_t =>
          nd_tanh
            (nd_add (nd_add (nd_dot X_t (Wxh p)) (nd_dot h_prev (Whh p)))
               (bh p))
      | None => h_prev
      end
  end.

(** [yhat_t = softmax(h_t Why + by)] *)
Definition rnn_output (p : params) (inputs : list T) (state : T)
  (temperature : Qc) (t : nat) : T :=
  softmax (nd_add (nd_dot (rnn_hidden p inputs state t) (Why p)) (b_y p))
    temperature.

End Network.

End SimpleRNN.

(** *** Generating text by sampling *)

Module Sampling.
Import Tensor CharCodec CharRNN.

Section Sample.
Context {T : Type} `{NDArith T} `{NDFun T} {G : Type}.

(** The framework calls of [sample] besides the network's arithmetic: an
    array built by [one_hots] used as an input of the network,
    [nd.zeros(shape=...)], the first row [a[0]] of an output, and the
    draw [np.random.choice(n, p=...)], which advances the generator and
    may reject its arguments. *)
Variable of_array : NDArray Qc → T.
Variable nd_zeros : list nat → T.
Variable first_row : T → T.
Variable random_choice : G → nat → T → option (nat * G).

Variable character_list : list ascii.
Variable num_hidden : nat.

(** [sample(prefix, num_chars, temperature)] of the simple-RNN notebook;
    [vocab_size] is [len(character_list)] as the notebook defines it.
    [None] is a run that raises.  The kernels of the network are taken on
    arguments the framework accepts, so [Some] describes the runs on which
    it does accept them. *)
Definition sample (p : SimpleRNN.params) (prefix : string)
  (num_chars : nat) (temperature : Qc) (g : G) : option (string * G) :=
  let vocab_size := length character_list in
  prefix_numerical ← numerical character_list prefix;
  input ← one_hots prefix_numerical vocab_size;
  let sample_state := nd_zeros [1; num_hidden] in
  acc ← foldl (λ acc _,
                 '(string, input, sample_state, g) ← acc;
                 let '(outputs, sample_state) :=
                   SimpleRNN.simple_rnn p (of_array <$> input) sample_state
                     temperature in
                 output ← last outputs;
                 '(choice, g) ← random_choice g 77 (first_row output);
                 c ← character_list !! choice;
                 input ← one_hots [choice] vocab_size;
                 Some (string +:+ String c EmptyString, input,
                       sample_state, g))
              (Some (prefix, input, sample_state, g)) (seq 0 num_chars);
  Some (acc.1.1.1, acc.2).

End Sample.

(** Framework calls as syntax: a tensor is the expression that computes
    it.  Used to run the networks on concrete inputs. *)
Inductive expr :=
| Leaf (a : NDArray Qc)
| Zeros (shp : list nat)
| Call1 (op : string) (x : expr)
| Call2 (op : string) (x y : expr)
| CallScalar (op : string) (c : Qc) (x : expr).

#[export] Instance expr_arith : NDArith expr := {|
  nd_dot := Call2 "dot"; nd_add := Call2 "add"; nd_sub := Call2 "sub";
  nd_mul := Call2 "mul"; nd_div := Call2 "div"; nd_neg := Call1 "neg";
  nd_div_scalar := λ x c, CallScalar "div_scalar" c x;
  nd_rsub_scalar := CallScalar "rsub_scalar";
  nd_mul_scalar := CallScalar "mul_scalar";
  nd_array0 := Zeros [1]
|}.

#[export] Instance expr_fun : NDFun expr := {|
  nd_tanh := Call1 "tanh"; nd_sigmoid := Call1 "sigmoid";
  nd_exp := Call1 "exp"; nd_log := Call1 "log"; nd_max := Call1 "max";
  nd_mean := Call1 "mean"; nd_sum_rows := Call1 "sum_rows";
  nd_reshape_col := Call1 "reshape_col"
|}.

(** A generator that draws its own state modulo [n] and steps on. *)
Definition counter_choice (g n : nat) (probabilities : expr)
  : option (nat * nat) :=
  Some (g mod n, S g).

End Sampling.

(** *** The gated recurrent unit *)

Module GRURNN.
Import CharRNN.

Section Network.
Context {T : Type} `{NDArith T} `{NDFun T}.

(** Parameters of the gated recurrent unit. *)
Record params := mkParams {
  Wxz : T; Wxr : T; Wxh : T;
  Whz : T; Whr : T; Whh : T;
  bz : T; br : T; bh : T;
  Why : T; b_y : T
}.

(** [gru_rnn(inputs, h, temperature)] *)
Definition gru_rnn (p : params) (inputs : list T) (h : T)
  (temperature : Qc) : list T * T :=
  foldl (λ '(outputs, h) X,
           let z := nd_sigmoid
             (nd_add (nd_add (nd_dot X (Wxz p)) (nd_dot h (Whz p))) (bz p)) in
           let r := nd_sigmoid
             (nd_add (nd_add (nd_dot X (Wxr p)) (nd_dot h (Whr p))) (br p)) in
           let h :=
             nd_add (nd_mul z h)
               (nd_mul (nd_rsub_scalar 1%Qc z)
                  (nd_tanh
                     (nd_add
                        (nd_add (nd_dot X (Wxh p))
                           (nd_dot (nd_mul r h) (Whh p)))
                        (bh p)))) in
           let yhat_linear := nd_add (nd_dot h (Why p)) (b_y p) in
           let yhat := softmax yhat_linear temperature in
           (outputs ++ [yhat], h))
        ([], h) inputs.

(** Specification, from the recurrence equations (not from the loop):
    the gates [z_t], [r_t] and the hidden state [h_t]. *)
Definition gru_update_gate (p : params) (X_t h_prev : T) : T :=
  nd_sigmoid
    (nd_add (nd_add (nd_dot X_t (Wxz p)) (nd_dot h_prev (Whz p))) (bz p)).

Definition gru_reset_gate (p : params) (X_t h_prev : T) : T :=
  nd_sigmoid
    (nd_add (nd_add (nd_dot X_t (Wxr p)) (nd_dot h_prev (Whr p))) (br p)).

Fixpoint gru_hidden (p : params) (inputs : list T) (h : T) (t : nat)
  : T :=
  match t with
  | 0 => h
  | S t' =>
      let h_prev := gru_hidden p inputs h t' in
      match inputs !! t' with
      | Some X_t =>
          let z_t := gru_update_gate p X_t h_prev in
          let r_t := gru_reset_gate p X_t h_prev in
          nd_add (nd_mul z_t h_prev)
            (nd_mul (nd_rsub_scalar 1%Qc z_t)
               (nd_tanh
                  (nd_add
                     (nd_add (nd_dot X_t (Wxh p))
                        (nd_dot (nd_mul r_t h_prev) (Whh p)))
                     (bh p))))
      | None => h_prev
      end
  end.

(** [yhat_t = softmax(h_t Why + by)] *)
Definition gru_output (p : params) (inputs : list T) (h : T)
  (temperature : Qc) (t : nat) : T :=
  softmax (nd_add (nd_dot (gru_hidden p inputs h t) (Why p)) (b_y p))
    temperature.

End Network.

End GRURNN.

(** ** The gluon language-model notebook: building the model *)

Module GluonModel.
Import Errors.

(** A positional argument of a constructor call. *)
Inductive py_arg :=
| PyInt (n : nat)
| PyStr (s : string).

Section Init.
Context {Layer : Type}.

(** The calls into the library [RNNModel.__init__] makes, each with the
    arguments the notebook passes: positional ones in order, then the
    keyword ones.  [nn_Embedding] stands for the whole call expression,
    the initializer [mx.init.Uniform(0.1)] it is given included. *)
Variable Block_init : outcome unit.
Variable name_scope : outcome unit.
Variable nn_Dropout : Qc → outcome Layer.
Variable nn_Embedding : nat → nat → outcome Layer.
Variable rnn_RNN : list py_arg → Qc → nat → outcome Layer.
Variable rnn_LSTM : list py_arg → Qc → nat → outcome Layer.
Variable rnn_GRU : list py_arg → Qc → nat → outcome Layer.
Variable nn_Dense : nat → nat → option Layer → outcome Layer.

Record RNNModel := mkRNNModel {
  drop : Layer;
  encoder : Layer;
  rnn : Layer;
  decoder : Layer;
  num_hidden_of : nat
}.

(** [RNNModel.__init__(mode, vocab_size, num_embed, num_hidden,
    num_layers, dropout, tie_weights)] *)
Definition RNNModel_init (mode : string)
  (vocab_size num_embed num_hidden num_layers : nat) (dropout : Qc)
  (tie_weights : bool) : result RNNModel :=
  _ ←! call Block_init;
  _ ←! call name_scope;
  drop ←! call (nn_Dropout dropout);
  encoder ←! call (nn_Embedding vocab_size num_embed);
  rnn ←!
    (if decide (mode = "rnn_relu") then
       call (rnn_RNN [PyInt num_hidden; PyStr "relu"; PyInt num_layers]
               dropout num_embed)
     else if decide (mode = "rnn_tanh") then
       call (rnn_RNN [PyInt num_hidden; PyInt num_layers] dropout num_embed)
     else if decide (mode = "lstm") then
       call (rnn_LSTM [PyInt num_hidden; PyInt num_layers] dropout num_embed)
     else if decide (mode = "gru") then
       call (rnn_GRU [PyInt num_hidden; PyInt num_layers] dropout num_embed)
     else Raise (Exn Repository "ValueError"));
  decoder ←!
    (if tie_weights
     then call (nn_Dense vocab_size num_hidden (Some encoder))
     else call (nn_Dense vocab_size num_hidden None));
  Ok (mkRNNModel drop encoder rnn decoder num_hidden).

End Init.

End GluonModel.

(** ** The gluon language-model notebook: batching *)

Module LanguageModel.
Import Tensor.

Definition args_batch_size : nat := 32.
Definition args_bptt : nat := 35.
Definition args_log_interval : nat := 100.

(** [batchify(data, batch_size)]; the floor division raises for a zero
    [batch_size]. *)
Definition batchify {A} (data : NDArray A) (batch_size : nat)
  : option (NDArray A) :=
  d0 ← head (shape data);
  if decide (batch_size = 0) then None
  else
    let nbatch := d0 / batch_size in
    data ← slice data 0 (nbatch * batch_size);
    data ← reshape data [batch_size; nbatch];
    transpose data.

(** [get_batch(source, i)].  Offsets are natural numbers; for [i] up to
    [source.shape[0] - 1] the truncated subtraction is Python's. *)
Definition get_batch {A} (source : NDArray A) (i : nat)
  : option (NDArray A * NDArray A) :=
  d0 ← head (shape source);
  let seq_len := args_bptt `min` (d0 - 1 - i) in
  data ← slice source i (i + seq_len);
  target ← slice source (i + 1) (i + 1 + seq_len);
  Some (data, flatten target).

(** *** Evaluation and the training log of the language model *)

Section Training.
Context {H : Type}.

(** [model(data, hidden)] followed by [loss(output, target)]: the next
    hidden state and the loss [L], one entry per prediction. *)
Variable forward_loss : H → NDArray nat → NDArray nat → H * list Qc.

(** The same inside [autograd.record()], followed by the backward pass,
    gradient clipping and [trainer.step]; the state carries the model. *)
Variable train_step : H → NDArray nat → NDArray nat → H * list Qc.

(** [range(0, stop, step)] *)
Definition range_by (stop step : nat) : list nat :=
  (λ k, k * step) <$> seq 0 ((stop + step - 1) / step).

(** [mx.nd.sum(L).asscalar()] *)
Definition sum_L (L : list Qc) : Qc := foldr Qcplus 0%Qc L.

(** [eval(data_source)]; the final division raises when no prediction
    was made. *)
Definition eval (hidden : H) (data_source : NDArray nat) : option Qc :=
  d0 ← head (shape data_source);
  acc ← foldl (λ acc i,
                 '(total_L, ntotal, hidden) ← acc;
                 '(data, target) ← get_batch data_source i;
                 let '(hidden, L) := forward_loss hidden data target in
                 Some ((total_L + sum_L L)%Qc, ntotal + length L, hidden))
              (Some (0%Qc, 0, hidden)) (range_by (d0 - 1) args_bptt);
  let '(total_L, ntotal, _) := acc in
  if decide (ntotal = 0) then None
  else Some (total_L / Qc_of_nat ntotal)%Qc.

(** Specification: the loss vectors of the batches [eval] visits, in
    order, for comparison with the totals [eval] accumulates. *)
Definition eval_losses (hidden : H) (data_source : NDArray nat)
  : option (list (list Qc)) :=
  d0 ← head (shape data_source);
  acc ← foldl (λ acc i,
                 '(Ls, hidden) ← acc;
                 '(data, target) ← get_batch data_source i;
                 let '(hidden, L) := forward_loss hidden data target in
                 Some (Ls ++ [L], hidden))
              (Some ([], hidden)) (range_by (d0 - 1) args_bptt);
  Some acc.1.

(** The totals [eval] keeps, computed from the loss vectors seen. *)
Definition totals_of (acc : option (list (list Qc) * H))
  : option (Qc * nat * H) :=
  '(Ls, hidden) ← acc;
  Some (sum_L (concat Ls), length (concat Ls), hidden).

(** The batch loop of one epoch of [train()].  The result lists, in
    order, the values [cur_L] of the log lines; each line prints [cur_L]
    as the loss and [math.exp(cur_L)] as the perplexity. *)
Definition train_epoch_log (hidden : H) (train_data : NDArray nat)
  : option (list Qc) :=
  d0 ← head (shape train_data);
  acc ← foldl (λ acc bi,
                 '(total_L, printed, hidden) ← acc;
                 '(data, target) ← get_batch train_data bi.2;
                 let '(hidden, L) := train_step hidden data target in
                 let total_L := (total_L + sum_L L)%Qc in
                 if decide (bi.1 mod args_log_interval = 0 ∧ 0 < bi.1)
                 then
                   let cur_L :=
                     (total_L / Qc_of_nat args_bptt
                      / Qc_of_nat args_batch_size
                      / Qc_of_nat args_log_interval)%Qc in
                   Some (0%Qc, printed ++ [cur_L], hidden)
                 else Some (total_L, printed, hidden))
              (Some (0%Qc, [], hidden))
              (imap pair (range_by (d0 - 1) args_bptt));
  Some acc.1.2.

End Training.

(** A run in which every prediction has loss [1]: the loss vector has one
    entry per target. *)
Definition unit_loss (hidden : unit) (data target : NDArray nat)
  : unit * list Qc :=
  (hidden, replicate (length (Tensor.data target)) 1%Qc).

(** A batchified corpus of [rows] rows, [args_batch_size] wide. *)
Definition corpus_of_rows (rows : nat) : NDArray nat :=
  mkNDArray [rows; args_batch_size] (replicate (rows * args_batch_size) 0).

End LanguageModel.


(** * Properties *)

(** ** The vocabulary *)

Section VocabularyProps.
Import Vocabulary.

Lemma tables_agree_init : tables_agree Dictionary_init.
Proof. intros w i; simpl. rewrite lookup_empty, lookup_nil. done. Qed.

Lemma add_word_present w d i :
  word2idx d !! w = Some i → add_word w d = (Some i, d).
Proof.
  intros Hw. unfold add_word.
  rewrite decide_True by (apply elem_of_dom; eauto).
  by rewrite Hw.
Qed.

Lemma add_word_fresh w d :
  word2idx d !! w = None →
  add_word w d =
    (Some (length (idx2word d)),
     {| word2idx := <[w := length (idx2word d)]> (word2idx d);
        idx2word := idx2word d ++ [w] |}).
Proof.
  intros Hw. unfold add_word.
  rewrite decide_False by (rewrite not_elem_of_dom; done).
  cbn [word2idx idx2word]. rewrite length_app; simpl.
  replace (length (idx2word d) + 1 - 1) with (length (idx2word d)) by lia.
  by rewrite lookup_insert_eq.
Qed.

Lemma add_word_agree w d :
  tables_agree d → tables_agree (add_word w d).2.
Proof.
  intros Hd. destruct (word2idx d !! w) as [i|] eqn:Hw.
  - by rewrite (add_word_present _ _ _ Hw).
  - rewrite (add_word_fresh _ _ Hw). intros w' j; cbn [snd word2idx idx2word].
    destruct (decide (w = w')) as [<-|Hne].
    + rewrite lookup_insert_eq. split.
      * intros [= <-]. by apply list_lookup_middle.
      * intros Hj. destruct (decide (j < length (idx2word d))) as [Hlt|Hge].
        -- rewrite lookup_app_l in Hj by done.
           apply Hd in Hj. congruence.
        -- apply lookup_lt_Some in Hj as Hb. rewrite length_app in Hb.
           simpl in Hb. f_equal; lia.
    + rewrite lookup_insert_ne by done. rewrite (Hd w' j). split.
      * intros Hj. rewrite lookup_app_l; [done|]. by eapply lookup_lt_Some.
      * intros Hj. destruct (decide (j < length (idx2word d))) as [Hlt|Hge].
        -- by rewrite lookup_app_l in Hj.
        -- rewrite lookup_app_r in Hj by lia.
           apply list_lookup_singleton_Some in Hj as [_ ?]. done.
Qed.

Lemma add_word_size w d :
  length (idx2word d) = size (word2idx d) →
  length (idx2word (add_word w d).2) = size (word2idx (add_word w d).2).
Proof.
  intros Hd. destruct (word2idx d !! w) as [i|] eqn:Hw.
  - by rewrite (add_word_present _ _ _ Hw).
  - rewrite (add_word_fresh _ _ Hw); cbn [snd word2idx idx2word].
    rewrite length_app, map_size_insert_None by done. simpl. lia.
Qed.

Lemma add_word_dom w d :
  dom (word2idx (add_word w d).2) = {[ w ]} ∪ dom (word2idx d).
Proof.
  destruct (word2idx d !! w) as [i|] eqn:Hw.
  - rewrite (add_word_present _ _ _ Hw); simpl.
    assert (w ∈ dom (word2idx d)) by (apply elem_of_dom; eauto). set_solver.
  - rewrite (add_word_fresh _ _ Hw); cbn [snd word2idx].
    by rewrite dom_insert_L.
Qed.

Lemma add_words_snoc ws w d :
  add_words (ws ++ [w]) d = (add_word w (add_words ws d)).2.
Proof. unfold add_words. by rewrite foldl_app. Qed.

Lemma add_words_agree ws d :
  tables_agree d → tables_agree (add_words ws d).
Proof.
  induction ws as [|w ws IH] using rev_ind; [done|].
  intros Hd. rewrite add_words_snoc. by apply add_word_agree, IH.
Qed.

Lemma add_words_size ws d :
  length (idx2word d) = size (word2idx d) →
  length (idx2word (add_words ws d)) = size (word2idx (add_words ws d)).
Proof.
  induction ws as [|w ws IH] using rev_ind; [done|].
  intros Hd. rewrite add_words_snoc. by apply add_word_size, IH.
Qed.

Lemma add_words_dom ws d :
  dom (word2idx (add_words ws d)) = list_to_set ws ∪ dom (word2idx d).
Proof.
  induction ws as [|w ws IH] using rev_ind.
  - simpl. set_solver.
  - rewrite add_words_snoc, add_word_dom, IH, list_to_set_app_L. simpl.
    set_solver.
Qed.

(** C3. After any sequence of [add_word] calls on a fresh [Dictionary] the
    two tables are mutually inverse: every added word [w] has an index [i]
    with [idx2word[i] = w]; every index below [len(idx2word)] holds a word
    that [word2idx] maps back to that index; [add_word] on a word already
    present returns its assigned index and leaves the dictionary as it is
    (a second [add_word] of any word repeats the first one's result); and
    [len(dictionary)] is the number of distinct words added. *)
Theorem dictionary_tables_inverse (ws : list string) :
  let d := add_words ws Dictionary_init in
  (∀ w, w ∈ ws →
     ∃ i, word2idx d !! w = Some i ∧ idx2word d !! i = Some w) ∧
  (∀ i, i < length (idx2word d) →
     ∃ w, idx2word d !! i = Some w ∧ word2idx d !! w = Some i) ∧
  (∀ w, (∀ i, word2idx d !! w = Some i → add_word w d = (Some i, d)) ∧
        add_word w (add_word w d).2 = add_word w d) ∧
  Dictionary_len d = size (list_to_set ws : gset string).
Proof.
  intros d.
  assert (Hagree : tables_agree d) by apply add_words_agree, tables_agree_init.
  assert (Hdom : dom (word2idx d) = list_to_set ws).
  { unfold d. rewrite add_words_dom. simpl. rewrite dom_empty_L. set_solver. }
  split; [|split; [|split]].
  - intros w Hw.
    assert (Hin : w ∈ dom (word2idx d)) by (rewrite Hdom; set_solver).
    apply elem_of_dom in Hin as [i Hi]. exists i. split; [done|].
    by apply Hagree.
  - intros i Hi. destruct (lookup_lt_is_Some_2 _ _ Hi) as [w Hw].
    exists w. split; [done|]. by apply Hagree.
  - intros w. split; [intros i; apply add_word_present|].
    destruct (word2idx d !! w) as [i|] eqn:Hw.
    + rewrite (add_word_present _ _ _ Hw). simpl. by apply add_word_present.
    + rewrite (add_word_fresh _ _ Hw). apply add_word_present.
      cbn [snd word2idx]. by rewrite lookup_insert_eq.
  - unfold Dictionary_len. rewrite <- Hdom, size_dom.
    by apply add_words_size.
Qed.

Lemma dictionary_tables_inverse_witness :
  (∃ i, word2idx (add_words ["the"; "cat"; "the"] Dictionary_init) !! "cat"
          = Some i
        ∧ idx2word (add_words ["the"; "cat"; "the"] Dictionary_init) !! i
          = Some "cat")
  ∧ Dictionary_len (add_words ["the"; "cat"; "the"] Dictionary_init) = 2.
Proof.
  destruct (dictionary_tables_inverse ["the"; "cat"; "the"])
    as (Hfwd & _ & _ & Hlen).
  split.
  - apply Hfwd. apply list_elem_of_In. simpl. tauto.
  - rewrite Hlen. vm_compute. reflexivity.
Defined.

Example add_word_twice :
  (add_word "the" (add_word "the" Dictionary_init).2).1 = Some 0
  ∧ idx2word (add_words ["the"; "cat"; "the"] Dictionary_init)
    = ["the"; "cat"].
Proof. split; reflexivity. Qed.

End VocabularyProps.

(** ** One-hot encoding and decoding *)

Ltac step_bind := cbn [mbind option_bind].

Section CharCodecProps.
Import Tensor CharCodec.

Lemma numel_row c : numel [1; c] = c.
Proof. unfold numel; simpl. lia. Qed.

Lemma numel_vec c : numel [c] = c.
Proof. unfold numel; simpl. lia. Qed.

Lemma setitem2_zeros vocab_size idx :
  idx < vocab_size →
  setitem2 (zeros 0%Qc [1; vocab_size]) 0 idx 1%Qc
  = Some (one_hot_row vocab_size idx).
Proof.
  intros Hidx. unfold setitem2, zeros; cbn [shape data].
  rewrite decide_True by lia. rewrite numel_row. reflexivity.
Qed.

Lemma setitem2_zeros_out vocab_size idx :
  vocab_size ≤ idx → setitem2 (zeros 0%Qc [1; vocab_size]) 0 idx 1%Qc = None.
Proof.
  intros Hidx. unfold setitem2, zeros; cbn [shape data].
  rewrite decide_False by lia. reflexivity.
Qed.

Lemma one_hots_snoc ixs idx vocab_size :
  one_hots (ixs ++ [idx]) vocab_size =
  res ← one_hots ixs vocab_size;
  array ← setitem2 (zeros 0%Qc [1; vocab_size]) 0 idx 1%Qc;
  Some (res ++ [array]).
Proof. unfold one_hots. by rewrite foldl_app. Qed.

Lemma one_hots_in_range ixs vocab_size :
  Forall (λ idx, idx < vocab_size) ixs →
  one_hots ixs vocab_size = Some (one_hot_row vocab_size <$> ixs).
Proof.
  induction ixs as [|idx ixs IH] using rev_ind; [done|].
  intros [Hixs Hidx%Forall_inv]%Forall_app.
  rewrite one_hots_snoc. rewrite (IH Hixs). step_bind.
  rewrite setitem2_zeros by done. step_bind. by rewrite fmap_app.
Qed.

Lemma insert_replicate_split {A} (x y : A) n idx :
  idx < n →
  <[idx := x]> (replicate n y)
  = replicate idx y ++ x :: replicate (n - S idx) y.
Proof.
  revert idx. induction n as [|n IH]; intros [|idx] Hlt; try lia.
  - simpl. by rewrite Nat.sub_0_r.
  - simpl. f_equal. apply IH. lia.
Qed.

Lemma one_hot_row_lookup vocab_size idx j :
  idx < vocab_size → j < vocab_size →
  data (one_hot_row vocab_size idx) !! j
  = Some (if decide (j = idx) then 1%Qc else 0%Qc).
Proof.
  intros Hidx Hj. unfold one_hot_row; cbn [data].
  destruct (decide (j = idx)) as [->|Hne].
  - apply list_lookup_insert_eq. by rewrite length_replicate.
  - rewrite list_lookup_insert_ne by done. by apply lookup_replicate_2.
Qed.

Lemma argmax_from_zeros_after best besti i m :
  (best ?= 0)%Qc ≠ Lt →
  argmax_from best besti i (replicate m 0%Qc) = besti.
Proof.
  intros Hbest. revert i. induction m as [|m IH]; intros i; [done|].
  simpl. destruct (best ?= 0)%Qc; try done; apply IH.
Qed.

Lemma argmax_from_one_hot besti i j m :
  argmax_from 0%Qc besti i (replicate j 0%Qc ++ 1%Qc :: replicate m 0%Qc)
  = i + j.
Proof.
  revert i. induction j as [|j IH]; intros i.
  - simpl. rewrite argmax_from_zeros_after by done. lia.
  - simpl. rewrite IH. lia.
Qed.

Lemma argmax_one_hot vocab_size idx :
  idx < vocab_size →
  argmax (mkNDArray [vocab_size]
            (<[idx := 1%Qc]> (replicate vocab_size 0%Qc))) = Some idx.
Proof.
  intros Hidx. unfold argmax; cbn [shape data].
  rewrite insert_replicate_split by done.
  destruct idx as [|idx]; simpl.
  - by rewrite argmax_from_zeros_after.
  - rewrite argmax_from_one_hot. f_equal.
Qed.

Lemma getitem_one_hot_row vocab_size idx :
  getitem (one_hot_row vocab_size idx) 0
  = Some (mkNDArray [vocab_size]
            (<[idx := 1%Qc]> (replicate vocab_size 0%Qc))).
Proof.
  unfold getitem, one_hot_row; cbn [shape data].
  rewrite decide_True by lia. rewrite numel_vec.
  change (0 * vocab_size) with 0. rewrite drop_0.
  rewrite take_ge; [done|]. by rewrite length_insert, length_replicate.
Qed.

Lemma textify_snoc character_list vs v :
  textify character_list (vs ++ [v]) =
  res ← textify character_list vs;
  vector0 ← getitem v 0;
  k ← argmax vector0;
  c ← character_list !! k;
  Some (res +:+ String c EmptyString).
Proof. unfold textify. by rewrite foldl_app. Qed.

Lemma string_of_list_ascii_snoc cs c :
  String.string_of_list_ascii (cs ++ [c])
  = String.string_of_list_ascii cs +:+ String c EmptyString.
Proof. induction cs as [|c' cs IH]; simpl; [done|]. by rewrite IH. Qed.

Lemma textify_one_hot_rows character_list ixs cs :
  Forall2 (λ idx c, character_list !! idx = Some c) ixs cs →
  textify character_list (one_hot_row (length character_list) <$> ixs)
  = Some (String.string_of_list_ascii cs).
Proof.
  revert cs. induction ixs as [|idx ixs IH] using rev_ind; intros cs Hcs.
  - by apply Forall2_nil_inv_l in Hcs as ->.
  - apply Forall2_app_inv_l in Hcs as (cs1 & cs2 & Hcs1 & Hcs2 & ->).
    apply Forall2_cons_inv_l in Hcs2 as (c & cs3 & Hc & Hnil & ->).
    apply Forall2_nil_inv_l in Hnil as ->.
    rewrite fmap_app, list_fmap_singleton, textify_snoc, (IH _ Hcs1).
    step_bind. rewrite getitem_one_hot_row.
    step_bind. rewrite argmax_one_hot by (by eapply lookup_lt_Some).
    step_bind. rewrite Hc.
    step_bind. by rewrite string_of_list_ascii_snoc.
Qed.

Lemma character_dict_snoc character_list c :
  character_dict (character_list ++ [c])
  = <[c := length character_list]> (character_dict character_list).
Proof.
  unfold character_dict. rewrite imap_app, foldl_app. simpl.
  by rewrite Nat.add_0_r.
Qed.

Lemma character_dict_sound character_list c e :
  character_dict character_list !! c = Some e → character_list !! e = Some c.
Proof.
  revert e. induction character_list as [|c' l IH] using rev_ind; intros e.
  - unfold character_dict; simpl. by rewrite lookup_empty.
  - rewrite character_dict_snoc. destruct (decide (c' = c)) as [->|Hne].
    + rewrite lookup_insert_eq. intros [= <-]. by apply list_lookup_middle.
    + rewrite lookup_insert_ne by done. intros He%IH.
      by apply lookup_app_l_Some.
Qed.

Lemma character_dict_complete character_list c :
  c ∈ character_list → is_Some (character_dict character_list !! c).
Proof.
  induction character_list as [|c' l IH] using rev_ind.
  - by intros ?%elem_of_nil.
  - rewrite character_dict_snoc. intros Hc.
    destruct (decide (c' = c)) as [->|Hne].
    + rewrite lookup_insert_eq. eauto.
    + rewrite lookup_insert_ne by done. apply IH.
      apply elem_of_app in Hc as [Hc|Hc%list_elem_of_singleton]; congruence.
Qed.

Lemma numerical_decodes character_list (cs : list ascii) :
  (∀ c, c ∈ cs → c ∈ character_list) →
  ∃ ixs, mapM (λ char, character_dict character_list !! char) cs = Some ixs
         ∧ Forall2 (λ idx c, character_list !! idx = Some c) ixs cs.
Proof.
  induction cs as [|c cs IH]; intros Hcs.
  - exists []. split; [done|constructor].
  - destruct IH as (ixs & Hixs & Hdec).
    { intros c' Hc'. apply Hcs. by right. }
    destruct (character_dict_complete character_list c) as [e He].
    { apply Hcs. by left. }
    exists (e :: ixs). split.
    + cbn [mapM]. rewrite He. step_bind. rewrite Hixs. done.
    + constructor; [|done]. by apply character_dict_sound.
Qed.

Lemma indices_decode (character_list : list ascii) ixs :
  Forall (λ idx, idx < length character_list) ixs →
  ∃ cs, Forall2 (λ idx c, character_list !! idx = Some c) ixs cs.
Proof.
  induction 1 as [|idx ixs Hidx _ [cs Hcs]]; [by exists []|].
  destruct (lookup_lt_is_Some_2 _ _ Hidx) as [c Hc].
  exists (c :: cs). by constructor.
Qed.

Lemma indices_in_range (character_list : list ascii) ixs cs :
  Forall2 (λ idx c, character_list !! idx = Some c) ixs cs →
  Forall (λ idx, idx < length character_list) ixs.
Proof.
  induction 1 as [|idx c ixs cs Hc _ IH]; constructor; [|done].
  by eapply lookup_lt_Some.
Qed.

(** C4. For indices all below [vocab_size], [one_hots] succeeds and returns
    one array per index, in order; the array for index [idx] has shape
    [(1, vocab_size)], so [vocab_size] elements, and holds [1.0] at position
    [idx] and [0.0] at every other position. *)
Theorem one_hots_single_one (numerical_list : list nat) (vocab_size : nat) :
  Forall (λ idx, idx < vocab_size) numerical_list →
  ∃ result,
    one_hots numerical_list vocab_size = Some result
    ∧ length result = length numerical_list
    ∧ ∀ k idx, numerical_list !! k = Some idx →
        ∃ array,
          result !! k = Some array
          ∧ shape array = [1; vocab_size]
          ∧ length (data array) = vocab_size
          ∧ ∀ j, j < vocab_size →
              at2 array 0 j = Some (if decide (j = idx) then 1%Qc else 0%Qc).
Proof.
  intros Hrange. exists (one_hot_row vocab_size <$> numerical_list).
  split; [by apply one_hots_in_range|].
  split; [by rewrite length_fmap|].
  intros k idx Hk. exists (one_hot_row vocab_size idx).
  assert (Hidx : idx < vocab_size).
  { rewrite Forall_lookup in Hrange. by eapply Hrange. }
  split; [by rewrite list_lookup_fmap, Hk|].
  split; [done|].
  split; [by cbn; rewrite length_insert, length_replicate|].
  intros j Hj. unfold at2. cbn [shape one_hot_row].
  rewrite decide_True by lia.
  change (0 * vocab_size + j) with j. by apply one_hot_row_lookup.
Qed.

Lemma one_hots_single_one_witness :
  ∃ result,
    one_hots [2; 0] 3 = Some result ∧ length result = 2
    ∧ ∃ array, result !! 0 = Some array ∧ at2 array 0 2 = Some 1%Qc
               ∧ at2 array 0 1 = Some 0%Qc.
Proof.
  destruct (one_hots_single_one [2; 0] 3) as (result & Hres & Hlen & Hrows).
  { repeat constructor. }
  exists result. split; [done|]. split; [done|].
  destruct (Hrows 0 2 eq_refl) as (array & Harr & _ & _ & Hat).
  exists array. split; [done|].
  split; [apply (Hat 2); lia|apply (Hat 1); lia].
Defined.

(** C5. Decoding is a left inverse of one-hot encoding.  For indices all
    below [len(character_list)], [textify(one_hots(ixs))] is the string
    whose [k]-th character is [character_list[ixs[k]]]; and for a text all
    of whose characters occur in [character_list], encoding it through
    [character_dict] and [one_hots] and decoding with [textify] gives the
    text back. *)
Theorem textify_one_hots_inverse (character_list : list ascii) :
  (∀ ixs, Forall (λ idx, idx < length character_list) ixs →
     ∃ vs cs,
       one_hots ixs (length character_list) = Some vs
       ∧ Forall2 (λ idx c, character_list !! idx = Some c) ixs cs
       ∧ textify character_list vs = Some (String.string_of_list_ascii cs))
  ∧ (∀ text,
       (∀ c, c ∈ String.list_ascii_of_string text → c ∈ character_list) →
       ∃ ixs vs,
         numerical character_list text = Some ixs
         ∧ one_hots ixs (length character_list) = Some vs
         ∧ textify character_list vs = Some text).
Proof.
  split.
  - intros ixs Hrange. destruct (indices_decode _ _ Hrange) as [cs Hcs].
    exists (one_hot_row (length character_list) <$> ixs), cs.
    split; [by apply one_hots_in_range|]. split; [done|].
    by apply textify_one_hot_rows.
  - intros text Htext.
    destruct (numerical_decodes _ _ Htext) as (ixs & Hixs & Hdec).
    exists ixs, (one_hot_row (length character_list) <$> ixs).
    split; [done|].
    split; [by eapply one_hots_in_range, indices_in_range|].
    rewrite (textify_one_hot_rows _ _ _ Hdec).
    by rewrite String.string_of_list_ascii_of_string.
Qed.

Lemma textify_one_hots_inverse_witness :
  (∃ vs, one_hots [2; 0; 1] 3 = Some vs
         ∧ ∃ s, textify ["a"; "b"; "c"]%char vs = Some s)
  ∧ (∃ ixs vs,
       numerical ["t"; "e"; "h"]%char "thee" = Some ixs
       ∧ one_hots ixs 3 = Some vs
       ∧ textify ["t"; "e"; "h"]%char vs = Some "thee").
Proof.
  split.
  - destruct (proj1 (textify_one_hots_inverse ["a"; "b"; "c"]%char) [2; 0; 1])
      as (vs & cs & Hvs & _ & Htext).
    { repeat constructor. }
    exists vs. split; [done|]. eauto.
  - apply (proj2 (textify_one_hots_inverse ["t"; "e"; "h"]%char) "thee").
    intros c Hc. apply list_elem_of_In in Hc. apply list_elem_of_In.
    simpl in *. intuition.
Defined.

Example one_hots_out_of_range : one_hots [2; 3] 3 = None.
Proof. reflexivity. Qed.

Example textify_round_trip :
  (ixs ← numerical ["a"; "b"; "c"]%char "cab";
   vs ← one_hots ixs 3;
   textify ["a"; "b"; "c"]%char vs) = Some "cab".
Proof. vm_compute. reflexivity. Qed.

End CharCodecProps.

(** ** Batching of the language-model notebook *)

Section BatchingProps.
Import Tensor LanguageModel.

Lemma lookup_bind_chunks {B C} (f : B → list C) (l : list B) n k i :
  (∀ x, x ∈ l → length (f x) = n) → i < n →
  (l ≫= f) !! (k * n + i) = l !! k ≫= λ x, f x !! i.
Proof.
  revert k. induction l as [|x l IH]; intros k Hlen Hi; [done|].
  rewrite bind_cons. destruct k as [|k].
  - simpl. rewrite lookup_app_l; [done|]. rewrite Hlen; [done|by left].
  - rewrite lookup_app_r by (rewrite Hlen by (by left); lia).
    rewrite Hlen by (by left).
    replace (S k * n + i - n) with (k * n + i) by lia.
    rewrite IH; [done| |done]. intros y Hy. apply Hlen. by right.
Qed.

Lemma lookup_bind_singletons {B C} (f : B → option C) (l : list B) k :
  (∀ x, x ∈ l → is_Some (f x)) →
  (l ≫= λ x, option_list (f x)) !! k = l !! k ≫= f.
Proof.
  intros Hsome.
  replace k with (k * 1 + 0) at 1 by lia.
  rewrite (lookup_bind_chunks _ _ 1); [|by intros x [y ->]%Hsome|lia].
  destruct (l !! k) as [x|] eqn:Hx; [|done]. simpl.
  destruct (Hsome x) as [y ->]; [|done]. by eapply list_elem_of_lookup_2.
Qed.

Lemma length_bind_singletons {B C} (f : B → option C) (l : list B) :
  (∀ x, x ∈ l → is_Some (f x)) →
  length (l ≫= λ x, option_list (f x)) = length l.
Proof.
  induction l as [|x l IH]; intros Hsome; [done|].
  rewrite bind_cons, length_app, IH by (intros y Hy; apply Hsome; by right).
  destruct (Hsome x) as [y ->]; [by left|]. done.
Qed.

Lemma length_bind_chunks {B C} (f : B → list C) (l : list B) n :
  (∀ x, x ∈ l → length (f x) = n) → length (l ≫= f) = length l * n.
Proof.
  induction l as [|x l IH]; intros Hlen; [done|].
  rewrite bind_cons, length_app, IH by (intros y Hy; apply Hlen; by right).
  rewrite Hlen by (by left). simpl. lia.
Qed.

(** The transpose reads entry [(j, i)] where the original holds [(i, j)]. *)
Lemma transpose_lookup {A} (a t : NDArray A) r c :
  shape a = [r; c] → length (data a) = r * c → transpose a = Some t →
  shape t = [c; r] ∧ length (data t) = c * r
  ∧ ∀ i j, i < r → j < c → data t !! (j * r + i) = data a !! (i * c + j).
Proof.
  intros Hshape Hlen. unfold transpose. rewrite Hshape. intros [= <-].
  cbn [shape data].
  assert (Hin : ∀ j' i', j' ∈ seq 0 c → i' ∈ seq 0 r →
                         is_Some (data a !! (i' * c + j'))).
  { intros j' i' Hj'%elem_of_seq Hi'%elem_of_seq.
    apply lookup_lt_is_Some_2. rewrite Hlen. nia. }
  assert (Hcol : ∀ j', j' ∈ seq 0 c →
            length (seq 0 r ≫= λ i', option_list (data a !! (i' * c + j'))) = r).
  { intros j' Hj'. rewrite length_bind_singletons.
    - by rewrite length_seq.
    - intros i' Hi'. by apply Hin. }
  split; [done|]. split.
  - rewrite (length_bind_chunks _ _ r) by done. by rewrite length_seq.
  - intros i j Hi Hj. rewrite (lookup_bind_chunks _ _ r) by done.
    rewrite lookup_seq_lt by done. step_bind. simpl.
    rewrite lookup_bind_singletons.
    + rewrite lookup_seq_lt by done. done.
    + intros i' Hi'. apply Hin; [|done]. apply elem_of_seq. lia.
Qed.

Lemma slice_rows {A} (a : NDArray A) r c start stop :
  shape a = [r; c] → start ≤ stop → stop ≤ r →
  slice a start stop
  = Some (mkNDArray [stop - start; c]
            (take ((stop - start) * c) (drop (start * c) (data a)))).
Proof.
  intros Hshape H1 H2. unfold slice. rewrite Hshape.
  rewrite decide_True by lia.
  replace (numel [c]) with c by (unfold numel; simpl; lia). done.
Qed.

Lemma rows_lookup {A} (d : list A) start n c k j :
  k < n → j < c →
  take (n * c) (drop (start * c) d) !! (k * c + j)
  = d !! ((start + k) * c + j).
Proof.
  intros Hk Hj. rewrite lookup_take_lt by nia. rewrite lookup_drop.
  f_equal. lia.
Qed.

(** C9. For a one-dimensional array of [n] tokens and [1 <= b <= n],
    [batchify(data, b)] succeeds with an array of shape [(n // b, b)] whose
    entry in row [i] and column [j] is token [j * (n // b) + i]: column [j]
    is the [j]-th contiguous segment of the first [(n // b) * b] tokens, in
    order, and no token from position [(n // b) * b] on is used. *)
Theorem batchify_columns {A} (tokens : NDArray A) (n b : nat) :
  shape tokens = [n] → length (data tokens) = n → 1 ≤ b → b ≤ n →
  ∃ batched,
    batchify tokens b = Some batched
    ∧ shape batched = [n / b; b]
    ∧ length (data batched) = n / b * b
    ∧ ∀ i j, i < n / b → j < b →
        j * (n / b) + i < n / b * b
        ∧ at2 batched i j = data tokens !! (j * (n / b) + i).
Proof.
  intros Hshape Hlen Hb1 Hbn.
  assert (Hle : n / b * b ≤ n) by (rewrite Nat.mul_comm; apply Nat.Div0.mul_div_le).
  unfold batchify. rewrite Hshape. cbn [head]. step_bind.
  rewrite decide_False by lia.
  unfold slice at 1. rewrite Hshape. rewrite decide_True by lia.
  step_bind. unfold reshape at 1. cbn [data].
  change (numel []) with 1. change (0 * 1) with 0.
  rewrite drop_0, Nat.sub_0_r, Nat.mul_1_r.
  rewrite decide_True
    by (rewrite length_take, Hlen; unfold numel; simpl; lia).
  step_bind.
  set (reshaped := mkNDArray [b; n / b] (take (n / b * b) (data tokens))).
  destruct (transpose reshaped) as [batched|] eqn:Ht; [|done].
  destruct (transpose_lookup reshaped batched b (n / b)) as (Hs & Hl & Hat);
    [done| |done|].
  { unfold reshaped; cbn [data]. rewrite length_take, Hlen. lia. }
  exists batched. split; [done|]. split; [done|].
  split; [by rewrite Hl|].
  intros i j Hi Hj. split; [nia|].
  unfold at2. rewrite Hs. rewrite decide_True by lia.
  rewrite (Hat j i) by done. unfold reshaped; cbn [data].
  apply lookup_take_lt. nia.
Qed.

Lemma batchify_columns_witness :
  ∃ batched,
    batchify (array1 [10; 11; 12; 13; 14; 15; 16]) 3 = Some batched
    ∧ shape batched = [2; 3]
    ∧ at2 batched 1 2 = Some 15.
Proof.
  destruct (batchify_columns (array1 [10; 11; 12; 13; 14; 15; 16]) 7 3)
    as (batched & Hb & Hs & _ & Hat); [reflexivity|reflexivity|lia|lia|].
  exists batched. split; [done|]. split; [done|].
  destruct (Hat 1 2) as [_ ->]; [simpl; lia|lia|]. reflexivity.
Defined.

(** C10. For a batchified source of [L] rows of width [b] and an offset
    [i < L - 1], write [s = min(args_bptt, L - 1 - i)].  Then [s >= 1], both
    slices end within the [L] rows, and [get_batch(source, i)] succeeds with
    [data] of shape [(s, b)] holding rows [i .. i+s-1] and [target] of shape
    [(s * b,)] holding rows [i+1 .. i+s] flattened: the target at step [k]
    is the source row one step after the data row at step [k]. *)
Theorem get_batch_shifted {A} (source : NDArray A) (L b i : nat) :
  shape source = [L; b] → length (data source) = L * b → i < L - 1 →
  let s := args_bptt `min` (L - 1 - i) in
  1 ≤ s ∧ i + s ≤ L ∧ i + 1 + s ≤ L
  ∧ ∃ batch target,
      get_batch source i = Some (batch, target)
      ∧ shape batch = [s; b]
      ∧ shape target = [s * b]
      ∧ ∀ k j, k < s → j < b →
          at2 batch k j = at2 source (i + k) j
          ∧ data target !! (k * b + j) = at2 source (i + 1 + k) j
          ∧ is_Some (at2 source (i + 1 + k) j).
Proof.
  intros Hshape Hlen Hi s.
  assert (Hs1 : 1 ≤ s) by (unfold s, args_bptt; lia).
  assert (Hs2 : i + 1 + s ≤ L) by (unfold s; lia).
  split; [done|]. split; [lia|]. split; [done|].
  unfold get_batch. rewrite Hshape. cbn [head]. step_bind. fold s.
  rewrite (slice_rows source L b) by (done || lia). step_bind.
  rewrite (slice_rows source L b) by (done || lia). step_bind.
  eexists _, _. split; [done|]. cbn [shape data flatten].
  replace (i + s - i) with s by lia.
  replace (i + 1 + s - (i + 1)) with s by lia.
  split; [done|]. split.
  { f_equal. rewrite length_take, length_drop, Hlen. nia. }
  intros k j Hk Hj. unfold at2. rewrite Hshape. cbn [shape data].
  rewrite !decide_True by lia. rewrite !rows_lookup by done.
  split; [done|]. split; [done|].
  apply lookup_lt_is_Some_2. rewrite Hlen. nia.
Qed.

Lemma get_batch_shifted_witness :
  ∃ batch target,
    get_batch (mkNDArray [3; 2] [1; 2; 3; 4; 5; 6]) 0 = Some (batch, target)
    ∧ shape batch = [2; 2]
    ∧ at2 batch 1 0 = Some 3 ∧ data target !! 2 = Some 5.
Proof.
  destruct (get_batch_shifted (mkNDArray [3; 2] [1; 2; 3; 4; 5; 6]) 3 2 0)
    as (_ & _ & _ & batch & target & Hg & Hs & _ & Hat);
    [reflexivity|reflexivity|simpl; lia|].
  exists batch, target. split; [done|]. split; [done|].
  destruct (Hat 1 0) as (Hd & Ht & _); [vm_compute; lia|lia|].
  split; [by rewrite Hd|]. change 2 with (1 * 2 + 0) at 1. by rewrite Ht.
Defined.

Example batchify_seven_by_three :
  batchify (array1 [10; 11; 12; 13; 14; 15; 16]) 3
  = Some (mkNDArray [2; 3] [10; 12; 14; 11; 13; 15]).
Proof. reflexivity. Qed.

Example batchify_zero_batch_size :
  batchify (array1 [10; 11; 12]) 0 = None.
Proof. reflexivity. Qed.

Example get_batch_last_rows :
  get_batch (mkNDArray [3; 2] [1; 2; 3; 4; 5; 6]) 1
  = Some (mkNDArray [1; 2] [3; 4], mkNDArray [2] [5; 6]).
Proof. reflexivity. Qed.

End BatchingProps.

(** ** The recurrent forward passes *)

Section ForwardProps.
Import CharRNN.
Context {T : Type} `{NDArith T} `{NDFun T}.

Lemma simple_rnn_snoc p (inputs : list T) X state temperature :
  SimpleRNN.simple_rnn p (inputs ++ [X]) state temperature =
  let '(outputs, h) := SimpleRNN.simple_rnn p inputs state temperature in
  let h' :=
    nd_tanh
      (nd_add (nd_add (nd_dot X (SimpleRNN.Wxh p)) (nd_dot h (SimpleRNN.Whh p)))
         (SimpleRNN.bh p)) in
  (outputs ++ [softmax (nd_add (nd_dot h' (SimpleRNN.Why p)) (SimpleRNN.b_y p))
                 temperature], h').
Proof.
  unfold SimpleRNN.simple_rnn. rewrite foldl_app. simpl.
  by destruct (foldl _ _ inputs).
Qed.

Lemma rnn_hidden_prefix p (inputs : list T) X state t :
  t ≤ length inputs →
  SimpleRNN.rnn_hidden p (inputs ++ [X]) state t
  = SimpleRNN.rnn_hidden p inputs state t.
Proof.
  induction t as [|t IH]; intros Ht; [done|].
  simpl. rewrite IH by lia. by rewrite lookup_app_l by lia.
Qed.

Lemma rnn_hidden_last p (inputs : list T) X state :
  SimpleRNN.rnn_hidden p (inputs ++ [X]) state (S (length inputs))
  = nd_tanh
      (nd_add
         (nd_add (nd_dot X (SimpleRNN.Wxh p))
            (nd_dot (SimpleRNN.rnn_hidden p inputs state (length inputs))
               (SimpleRNN.Whh p)))
         (SimpleRNN.bh p)).
Proof.
  simpl. rewrite rnn_hidden_prefix by done.
  by rewrite list_lookup_middle.
Qed.

Lemma gru_rnn_snoc p (inputs : list T) X h0 temperature :
  GRURNN.gru_rnn p (inputs ++ [X]) h0 temperature =
  let '(outputs, h) := GRURNN.gru_rnn p inputs h0 temperature in
  let z := GRURNN.gru_update_gate p X h in
  let r := GRURNN.gru_reset_gate p X h in
  let h' :=
    nd_add (nd_mul z h)
      (nd_mul (nd_rsub_scalar 1%Qc z)
         (nd_tanh
            (nd_add
               (nd_add (nd_dot X (GRURNN.Wxh p))
                  (nd_dot (nd_mul r h) (GRURNN.Whh p)))
               (GRURNN.bh p)))) in
  (outputs ++ [softmax (nd_add (nd_dot h' (GRURNN.Why p)) (GRURNN.b_y p))
                 temperature], h').
Proof.
  unfold GRURNN.gru_rnn. rewrite foldl_app. simpl.
  by destruct (foldl _ _ inputs).
Qed.

Lemma gru_hidden_prefix p (inputs : list T) X h0 t :
  t ≤ length inputs →
  GRURNN.gru_hidden p (inputs ++ [X]) h0 t = GRURNN.gru_hidden p inputs h0 t.
Proof.
  induction t as [|t IH]; intros Ht; [done|].
  simpl. rewrite IH by lia. by rewrite lookup_app_l by lia.
Qed.

Lemma gru_hidden_last p (inputs : list T) X h0 :
  GRURNN.gru_hidden p (inputs ++ [X]) h0 (S (length inputs))
  = let h := GRURNN.gru_hidden p inputs h0 (length inputs) in
    let z := GRURNN.gru_update_gate p X h in
    let r := GRURNN.gru_reset_gate p X h in
    nd_add (nd_mul z h)
      (nd_mul (nd_rsub_scalar 1%Qc z)
         (nd_tanh
            (nd_add
               (nd_add (nd_dot X (GRURNN.Wxh p))
                  (nd_dot (nd_mul r h) (GRURNN.Whh p)))
               (GRURNN.bh p)))).
Proof.
  simpl. rewrite gru_hidden_prefix by done.
  by rewrite list_lookup_middle.
Qed.

Lemma fmap_seq_snoc {B} (f g : nat → B) n :
  (∀ t, 1 ≤ t ≤ n → f t = g t) →
  f <$> seq 1 (S n) = (g <$> seq 1 n) ++ [f (S n)].
Proof.
  intros Hfg. rewrite seq_S, fmap_app. simpl. f_equal.
  apply list_fmap_ext. intros i t Ht%lookup_seq. apply Hfg. lia.
Qed.

Lemma simple_rnn_unfolds p (inputs : list T) state temperature :
  SimpleRNN.simple_rnn p inputs state temperature
  = (SimpleRNN.rnn_output p inputs state temperature
       <$> seq 1 (length inputs),
     SimpleRNN.rnn_hidden p inputs state (length inputs)).
Proof.
  induction inputs as [|X inputs IH] using rev_ind; [done|].
  rewrite simple_rnn_snoc, IH. cbv zeta.
  rewrite length_app, Nat.add_1_r.
  rewrite (fmap_seq_snoc _ (SimpleRNN.rnn_output p inputs state temperature)).
  - unfold SimpleRNN.rnn_output at 3. by rewrite rnn_hidden_last.
  - intros t Ht. unfold SimpleRNN.rnn_output.
    by rewrite rnn_hidden_prefix by lia.
Qed.

Lemma gru_rnn_unfolds p (inputs : list T) h temperature :
  GRURNN.gru_rnn p inputs h temperature
  = (GRURNN.gru_output p inputs h temperature <$> seq 1 (length inputs),
     GRURNN.gru_hidden p inputs h (length inputs)).
Proof.
  induction inputs as [|X inputs IH] using rev_ind; [done|].
  rewrite gru_rnn_snoc, IH. cbv zeta.
  rewrite length_app, Nat.add_1_r.
  rewrite (fmap_seq_snoc _ (GRURNN.gru_output p inputs h temperature)).
  - unfold GRURNN.gru_output at 3. by rewrite gru_hidden_last.
  - intros t Ht. unfold GRURNN.gru_output.
    by rewrite gru_hidden_prefix by lia.
Qed.

(** C1. The forward passes iterate the recurrences.  With [h_0] the
    initial state, [h_t = tanh(X_t Wxh + h_(t-1) Whh + bh)] and
    [yhat_t = softmax(h_t Why + by)], [simple_rnn(inputs, state)] returns
    the outputs [yhat_1 .. yhat_T], one per input, and the final state
    [h_T]; with [z_t], [r_t] and
    [h_t = z_t h_(t-1) + (1 - z_t) tanh(X_t Wxh + (r_t h_(t-1)) Whh + bh)],
    [gru_rnn(inputs, h)] does the same.  The temperature is the one passed
    on to [softmax] ([1.0] when the caller gives none). *)
Theorem forward_passes_iterate_recurrences :
  (∀ p (inputs : list T) state temperature,
     SimpleRNN.simple_rnn p inputs state temperature
     = (SimpleRNN.rnn_output p inputs state temperature
          <$> seq 1 (length inputs),
        SimpleRNN.rnn_hidden p inputs state (length inputs))
     ∧ length (SimpleRNN.simple_rnn p inputs state temperature).1
       = length inputs)
  ∧ (∀ p (inputs : list T) h temperature,
       GRURNN.gru_rnn p inputs h temperature
       = (GRURNN.gru_output p inputs h temperature
            <$> seq 1 (length inputs),
          GRURNN.gru_hidden p inputs h (length inputs))
       ∧ length (GRURNN.gru_rnn p inputs h temperature).1 = length inputs).
Proof.
  split; intros p inputs h temperature.
  - rewrite simple_rnn_unfolds. split; [done|].
    cbn [fst]. by rewrite length_fmap, length_seq.
  - rewrite gru_rnn_unfolds. split; [done|].
    cbn [fst]. by rewrite length_fmap, length_seq.
Qed.

End ForwardProps.

(** ** The optimizer and the learning-rate schedule *)

Section OptimizerProps.
Import CharRNN.

Lemma SGD_cons {T} `{NDArith T} param params lr (store : gmap nat (Param T)) :
  SGD (param :: params) lr store
  = SGD params lr (alter (sgd_update lr) param store).
Proof. done. Qed.

Lemma SGD_not_listed {T} `{NDArith T} params lr (store : gmap nat (Param T)) r :
  r ∉ params → SGD params lr store !! r = store !! r.
Proof.
  revert store. induction params as [|param params IH]; intros store Hr.
  - done.
  - apply not_elem_of_cons in Hr as [Hne Hr].
    rewrite SGD_cons, IH by done. by rewrite lookup_alter_ne.
Qed.

Lemma SGD_listed_once {T} `{NDArith T} params lr (store : gmap nat (Param T)) r :
  NoDup params → r ∈ params →
  SGD params lr store !! r = sgd_update lr <$> store !! r.
Proof.
  revert store. induction params as [|param params IH]; intros store Hnd Hr.
  - by apply elem_of_nil in Hr.
  - apply NoDup_cons in Hnd as [Hfresh Hnd]. rewrite SGD_cons.
    destruct (decide (r = param)) as [->|Hne].
    + rewrite SGD_not_listed by done. by rewrite lookup_alter_eq.
    + apply elem_of_cons in Hr as [?|Hr]; [done|].
      rewrite IH by done. by rewrite lookup_alter_ne.
Qed.

(** Every occurrence of a parameter in the list is one more update. *)
Lemma SGD_listed_twice {T} `{NDArith T} lr (store : gmap nat (Param T)) r :
  SGD [r; r] lr store !! r = sgd_update lr <$> (sgd_update lr <$> store !! r).
Proof.
  unfold SGD; simpl. by rewrite !lookup_alter_eq.
Qed.

(** C2, as the code has it.  For pairwise distinct parameters,
    [SGD(params, lr)] sets each listed parameter to its previous value
    minus [lr] times its gradient, keeps its gradient, and leaves every
    array that is not listed as it was. *)
Theorem SGD_distinct_params {T} `{NDArith T} (params : list nat) (lr : Qc)
    (store : gmap nat (Param T)) :
  NoDup params →
  SGD_postcondition params lr store (SGD params lr store).
Proof.
  intros Hnd. split.
  - intros r Hr. by apply SGD_listed_once.
  - intros r Hr. by apply SGD_not_listed.
Qed.

Lemma SGD_distinct_params_witness :
  SGD_postcondition [0; 1] (Q2Qc (1 # 2))
    {[ 0 := mkParam 1%Qc 1%Qc; 1 := mkParam 0%Qc 1%Qc ]}
    (SGD [0; 1] (Q2Qc (1 # 2))
         {[ 0 := mkParam 1%Qc 1%Qc; 1 := mkParam 0%Qc 1%Qc ]}).
Proof.
  apply SGD_distinct_params.
  apply NoDup_cons. split.
  - intros Hin%list_elem_of_singleton. discriminate Hin.
  - apply NoDup_singleton.
Defined.

(** A parameter listed twice is updated twice: with value [1], gradient
    [1] and rate [1/2] it ends at [0], not at [1/2]. *)
Lemma SGD_repeated_param_counterexample :
  ¬ SGD_postcondition [0; 0] (Q2Qc (1 # 2))
      {[ 0 := mkParam 1%Qc 1%Qc ]}
      (SGD [0; 0] (Q2Qc (1 # 2)) {[ 0 := mkParam 1%Qc 1%Qc ]}).
Proof.
  intros [Hlisted _]. specialize (Hlisted 0 ltac:(by left)).
  rewrite SGD_listed_twice, lookup_singleton_eq in Hlisted.
  apply (f_equal (fmap (λ param, this (value param)))) in Hlisted.
  vm_compute in Hlisted. discriminate Hlisted.
Qed.

Lemma Qcpower_2_nonzero n : (2 ^ n)%Qc ≠ 0%Qc.
Proof.
  induction n as [|n IH]; simpl; [done|].
  intros Hz. apply Qcmult_integral in Hz as [Hz|Hz]; [done|by apply IH].
Qed.

Lemma halve_power (lr : Qc) n : (lr / 2 ^ n / 2 = lr / 2 ^ S n)%Qc.
Proof.
  pose proof (Qcpower_2_nonzero n). simpl. field. split; [done|].
  discriminate.
Qed.

Lemma div_succ_100 e :
  S e / 100 = e / 100 + (if decide ((e + 1) mod 100 = 0) then 1 else 0).
Proof.
  rewrite Nat.add_1_r.
  pose proof (Nat.div_mod_eq (S e) 100).
  pose proof (Nat.div_mod_eq e 100).
  pose proof (Nat.mod_upper_bound (S e) 100).
  pose proof (Nat.mod_upper_bound e 100).
  case_decide; lia.
Qed.

Section Schedule.
Context {T : Type} `{NDArith T} {Batch State : Type}.
Variable backward :
  Batch → State → gmap nat (Param T) → State * gmap nat (Param T).
Variable zero_state : State.
Variable params : list nat.
Variable training_data : list Batch.

Notation training_loop :=
  (training_loop backward zero_state params training_data).
Notation training_epoch :=
  (training_epoch backward zero_state params training_data).
Notation train_batches :=
  (train_batches backward zero_state params training_data).

Lemma training_loop_S epochs lr0 store :
  training_loop (S epochs) lr0 store
  = training_epoch
      (training_loop epochs lr0 store) epochs.
Proof. unfold training_loop. by rewrite seq_S, foldl_app. Qed.

Lemma training_loop_rate epochs lr0 store :
  (training_loop epochs lr0 store).1
  = (lr0 / 2 ^ (epochs / 100))%Qc.
Proof.
  induction epochs as [|e IH].
  - simpl. field. discriminate.
  - rewrite training_loop_S. unfold training_epoch. cbn [fst]. rewrite IH.
    rewrite div_succ_100. case_decide.
    + rewrite Nat.add_1_r. apply halve_power.
    + by rewrite Nat.add_0_r.
Qed.

(** C7. The learning rate of the from-scratch training loops.  Running the
    loop through epoch [e]: the rate in effect during epoch [e], the one
    its parameter updates are made with, is the initial rate divided by
    [2 ^ ((e + 1) / 100)]; it is the rate before the epoch halved when
    [(e + 1) mod 100 = 0] and that rate itself otherwise; and the rate that
    enters epoch [e] is the one that was in effect during epoch [e - 1]. *)
Theorem learning_rate_halved_every_100 (e : nat) (lr0 : Qc)
    (store : gmap nat (Param T)) :
  let before := training_loop e lr0 store in
  let after := training_loop (S e) lr0 store in
  after.1 = (lr0 / 2 ^ ((e + 1) / 100))%Qc
  ∧ after.2
    = train_batches
        (lr0 / 2 ^ ((e + 1) / 100))%Qc before.2
  ∧ after.1
    = (if decide ((e + 1) mod 100 = 0) then (before.1 / 2)%Qc else before.1)
  ∧ before.1 = (lr0 / 2 ^ (e / 100))%Qc.
Proof.
  intros before after.
  assert (Hafter : after.1 = (lr0 / 2 ^ ((e + 1) / 100))%Qc).
  { unfold after. rewrite training_loop_rate. by rewrite Nat.add_1_r. }
  split; [done|]. split; [|split].
  - rewrite <- Hafter. unfold after. rewrite training_loop_S. done.
  - unfold after. rewrite training_loop_S. done.
  - apply training_loop_rate.
Qed.

End Schedule.

End OptimizerProps.

(** ** Errors: where they are raised and how they propagate *)

Section ErrorProps.
Import Errors Tensor Vocabulary CharRNN.

Lemma add_words_app ws1 ws2 d :
  add_words (ws1 ++ ws2) d = add_words ws2 (add_words ws1 d).
Proof. unfold add_words. by rewrite foldl_app. Qed.

(** First pass of [tokenize]: the token count and the grown dictionary. *)
Lemma tokenize_first_pass lines tokens d :
  foldl (λ '(tokens, d) line,
           let words := line ++ ["<eos>"] in
           (tokens + length words, add_words words d))
        (tokens, d) lines
  = (tokens + length (file_words lines), add_words (file_words lines) d).
Proof.
  revert tokens d. induction lines as [|line lines IH]; intros tokens d.
  - simpl. by rewrite Nat.add_0_r.
  - unfold file_words. rewrite bind_cons. fold (file_words lines).
    cbn [foldl]. rewrite IH.
    rewrite (add_words_app (line ++ ["<eos>"]) (file_words lines)).
    rewrite !length_app. f_equal. lia.
Qed.

(** Second pass: every word is in the dictionary and every slot exists. *)
Lemma tokenize_second_pass (d : Dictionary) ws ids token :
  (∀ w, w ∈ ws → is_Some (word2idx d !! w)) →
  token + length ws ≤ length ids →
  ∃ ids',
    foldl (λ acc word,
             '(ids, token) ←! acc;
             idx ←! framework "KeyError" (word2idx d !! word);
             ids ←! framework "IndexError"
                      (if decide (token < length ids)
                       then Some (<[token := idx]> ids) else None);
             Ok (ids, token + 1))
          (Ok (ids, token)) ws
    = Ok (ids', token + length ws)
    ∧ length ids' = length ids.
Proof.
  revert ids token. induction ws as [|w ws IH]; intros ids token Hin Hlen.
  - exists ids. simpl. by rewrite Nat.add_0_r.
  - destruct (Hin w) as [idx Hidx]; [by left|].
    simpl in Hlen. cbn [foldl result_bind]. rewrite Hidx.
    cbn [framework result_bind]. rewrite decide_True by lia.
    cbn [framework result_bind].
    destruct (IH (<[token := idx]> ids) (token + 1)) as (ids' & Hfold & Hl).
    { intros w' Hw'. apply Hin. by right. }
    { rewrite length_insert. lia. }
    exists ids'. rewrite Hfold. split.
    + do 2 f_equal. simpl. lia.
    + by rewrite Hl, length_insert.
Qed.

Lemma tokenize_missing fs path d :
  fs !! path = None → tokenize fs path d = Raise AssertionError.
Proof. intros Hpath. unfold tokenize. by rewrite Hpath. Qed.

Lemma tokenize_unreadable fs path d class :
  fs !! path = Some (Unreadable class) →
  tokenize fs path d = Raise (Exn Framework class).
Proof. intros Hpath. unfold tokenize. by rewrite Hpath. Qed.

Lemma tokenize_present fs path d lines :
  fs !! path = Some (Readable lines) →
  ∃ ids, tokenize fs path d
         = Ok (array1 ids, add_words (file_words lines) d)
         ∧ length ids = length (file_words lines).
Proof.
  intros Hpath. unfold tokenize. rewrite Hpath, tokenize_first_pass.
  destruct (tokenize_second_pass (add_words (file_words lines) d)
              (file_words lines)
              (replicate (0 + length (file_words lines)) 0) 0)
    as (ids & Hfold & Hlen).
  { intros w Hw. apply elem_of_dom. rewrite add_words_dom.
    apply elem_of_union_l. by apply elem_of_list_to_set. }
  { by rewrite length_replicate. }
  exists ids. rewrite Hfold. cbn [result_bind]. split; [done|].
  by rewrite Hlen, length_replicate.
Qed.

Lemma tokenize_raises fs path d e :
  tokenize fs path d = Raise e →
  (fs !! path = None ∧ e = AssertionError)
  ∨ (∃ class, fs !! path = Some (Unreadable class)
              ∧ e = Exn Framework class).
Proof.
  destruct (fs !! path) as [[lines|class]|] eqn:Hpath.
  - destruct (tokenize_present fs path d lines Hpath) as (ids & -> & _).
    discriminate.
  - rewrite (tokenize_unreadable _ _ _ _ Hpath). intros [= <-]. eauto.
  - rewrite tokenize_missing by done. intros [= <-]. eauto.
Qed.

Lemma from_framework_Ok {B} (b : B) : from_framework (Ok b).
Proof. intros e He. discriminate He. Qed.

Lemma from_framework_call {B} (o : outcome B) : from_framework (call o).
Proof. intros e. destruct o as [b|class]; simpl; [done|]. by intros [= <-]. Qed.

Lemma from_framework_bind {B C} (r : result B) (k : B → result C) :
  from_framework r → (∀ b, from_framework (k b)) →
  from_framework (result_bind r k).
Proof.
  intros Hr Hk e. destruct r as [b|e']; simpl.
  - apply Hk.
  - intros [= <-]. by apply Hr.
Qed.

Section LossErrors.
Context {T : Type} `{NDArith T} `{NDFun T} `{NDCheck T}.

Lemma nd_call_from_framework op (args : list T) value :
  from_framework (nd_call op args value).
Proof.
  unfold nd_call. destruct (nd_check op args) as [class|].
  - apply from_framework_call.
  - apply from_framework_Ok.
Qed.

Lemma cross_entropy_from_framework (yhat y : T) :
  from_framework (cross_entropy yhat y).
Proof.
  unfold cross_entropy.
  repeat (apply from_framework_bind;
          [apply nd_call_from_framework|intros ?]).
  apply nd_call_from_framework.
Qed.

Lemma loss_loop_from_framework (pairs : list (T * T)) total_loss :
  from_framework total_loss →
  from_framework
    (foldl (λ total_loss ol,
              total_loss ←! total_loss;
              loss ←! cross_entropy ol.1 ol.2;
              nd_call "add" [total_loss; loss] (nd_add total_loss loss))
           total_loss pairs).
Proof.
  revert total_loss. induction pairs as [|ol pairs IH]; intros total Htotal.
  - done.
  - cbn [foldl]. apply IH.
    apply from_framework_bind; [done|]. intros t.
    apply from_framework_bind; [apply cross_entropy_from_framework|].
    intros l. apply nd_call_from_framework.
Qed.

Lemma loss_loop_raised (pairs : list (T * T)) e :
  foldl (λ total_loss ol,
           total_loss ←! total_loss;
           loss ←! cross_entropy ol.1 ol.2;
           nd_call "add" [total_loss; loss] (nd_add total_loss loss))
        (Raise e) pairs = Raise e.
Proof. induction pairs as [|ol pairs IH]; [done|]. cbn [foldl]. exact IH. Qed.

Lemma average_ce_loss_first_call (yhat y : T) outputs labels class :
  length outputs = length labels →
  nd_check "array" [] = None → nd_check "log" [yhat] = Some class →
  average_ce_loss (yhat :: outputs) (y :: labels)
  = Raise (Exn Framework class).
Proof.
  intros Hlen Harray Hlog. unfold average_ce_loss.
  rewrite decide_True by (simpl; congruence).
  assert (Ha : nd_call "array" [] nd_array0 = Ok nd_array0)
    by (unfold nd_call; by rewrite Harray).
  assert (Hl : nd_call "log" [yhat] (nd_log yhat)
               = Raise (Exn Framework class))
    by (unfold nd_call; by rewrite Hlog).
  assert (Hce : cross_entropy yhat y = Raise (Exn Framework class))
    by (unfold cross_entropy; by rewrite Hl).
  cbn [zip zip_with foldl]. rewrite Ha. cbn [result_bind fst snd].
  rewrite Hce. cbn [result_bind]. by rewrite loss_loop_raised.
Qed.

Lemma average_ce_loss_raises (outputs labels : list T) :
  (length outputs ≠ length labels →
   average_ce_loss outputs labels = Raise AssertionError)
  ∧ (length outputs = length labels →
     from_framework (average_ce_loss outputs labels)).
Proof.
  unfold average_ce_loss. split; intros Hlen.
  - by rewrite decide_False.
  - rewrite decide_True by done.
    apply from_framework_bind.
    + apply loss_loop_from_framework, nd_call_from_framework.
    + intros t. apply nd_call_from_framework.
Qed.

End LossErrors.

Section InitErrors.
Import GluonModel.
Context {Layer : Type}.
Variable Block_init : outcome unit.
Variable name_scope : outcome unit.
Variable nn_Dropout : Qc → outcome Layer.
Variable nn_Embedding : nat → nat → outcome Layer.
Variable rnn_RNN : list py_arg → Qc → nat → outcome Layer.
Variable rnn_LSTM : list py_arg → Qc → nat → outcome Layer.
Variable rnn_GRU : list py_arg → Qc → nat → outcome Layer.
Variable nn_Dense : nat → nat → option Layer → outcome Layer.

Lemma RNNModel_init_raises mode vocab_size num_embed num_hidden num_layers
    dropout tie_weights e :
  RNNModel_init Block_init name_scope nn_Dropout nn_Embedding rnn_RNN
    rnn_LSTM rnn_GRU nn_Dense mode vocab_size num_embed num_hidden num_layers dropout
    tie_weights = Raise e →
  raised_by e = Framework
  ∨ (e = Exn Repository "ValueError"
     ∧ mode ∉ ["rnn_relu"; "rnn_tanh"; "lstm"; "gru"]).
Proof.
  unfold RNNModel_init.
  destruct Block_init as [[]|c0]; cbn [call result_bind];
    [|intros [= <-]; by left].
  destruct name_scope as [[]|c0']; cbn [call result_bind];
    [|intros [= <-]; by left].
  destruct (nn_Dropout dropout) as [drop|c1]; cbn [call result_bind];
    [|intros [= <-]; by left].
  destruct (nn_Embedding vocab_size num_embed) as [encoder|c2];
    cbn [call result_bind]; [|intros [= <-]; by left].
  assert (Hdecoder : ∀ rnn e,
    (decoder ←! (if tie_weights
                 then call (nn_Dense vocab_size num_hidden (Some encoder))
                 else call (nn_Dense vocab_size num_hidden None));
     Ok (mkRNNModel drop encoder rnn decoder num_hidden)) = Raise e →
    raised_by e = Framework).
  { intros rnn e'. apply from_framework_bind.
    - destruct tie_weights; apply from_framework_call.
    - intros decoder. apply from_framework_Ok. }
  repeat case_decide.
  - destruct (rnn_RNN _ _ _) as [rnn|c]; cbn [call result_bind];
      [intros Hd; left; by eapply Hdecoder|intros [= <-]; by left].
  - destruct (rnn_RNN _ _ _) as [rnn|c]; cbn [call result_bind];
      [intros Hd; left; by eapply Hdecoder|intros [= <-]; by left].
  - destruct (rnn_LSTM _ _ _) as [rnn|c]; cbn [call result_bind];
      [intros Hd; left; by eapply Hdecoder|intros [= <-]; by left].
  - destruct (rnn_GRU _ _ _) as [rnn|c]; cbn [call result_bind];
      [intros Hd; left; by eapply Hdecoder|intros [= <-]; by left].
  - cbn [result_bind]. intros [= <-]. right. split; [done|].
    intros Hin%list_elem_of_In. simpl in Hin. intuition congruence.
Qed.

Lemma RNNModel_init_unknown_mode mode vocab_size num_embed num_hidden
    num_layers dropout tie_weights drop encoder :
  mode ∉ ["rnn_relu"; "rnn_tanh"; "lstm"; "gru"] →
  Block_init = Returns () → name_scope = Returns () →
  nn_Dropout dropout = Returns drop →
  nn_Embedding vocab_size num_embed = Returns encoder →
  RNNModel_init Block_init name_scope nn_Dropout nn_Embedding rnn_RNN
    rnn_LSTM rnn_GRU nn_Dense mode vocab_size num_embed num_hidden num_layers dropout
    tie_weights = Raise (Exn Repository "ValueError").
Proof.
  intros Hmode Hb Hs Hd He. unfold RNNModel_init. rewrite Hb, Hs, Hd, He.
  cbn [call result_bind].
  repeat (rewrite decide_False;
          [|intros ->; apply Hmode, list_elem_of_In; simpl; tauto]).
  done.
Qed.

Lemma RNNModel_init_relu_rejected vocab_size num_embed num_hidden
    num_layers dropout tie_weights drop encoder class :
  Block_init = Returns () → name_scope = Returns () →
  nn_Dropout dropout = Returns drop →
  nn_Embedding vocab_size num_embed = Returns encoder →
  rnn_RNN [PyInt num_hidden; PyStr "relu"; PyInt num_layers] dropout
    num_embed = Throws class →
  RNNModel_init Block_init name_scope nn_Dropout nn_Embedding rnn_RNN
    rnn_LSTM rnn_GRU nn_Dense "rnn_relu" vocab_size num_embed num_hidden
    num_layers dropout tie_weights = Raise (Exn Framework class).
Proof.
  intros Hb Hs Hd He Hrnn. unfold RNNModel_init.
  rewrite Hb, Hs, Hd, He. cbn [call result_bind].
  rewrite decide_True by done. by rewrite Hrnn.
Qed.

End InitErrors.




End ErrorProps.

(** ** Evaluation loss and the perplexities of the training log *)

Section PerplexityProps.
Import Tensor LanguageModel.

Lemma sum_L_app L1 L2 : sum_L (L1 ++ L2) = (sum_L L1 + sum_L L2)%Qc.
Proof.
  induction L1 as [|x L1 IH]; simpl.
  - ring.
  - rewrite IH. ring.
Qed.

Section Eval.
Context {H : Type}.
Variable forward_loss : H → NDArray nat → NDArray nat → H * list Qc.

Lemma eval_loop_totals data_source offsets acc :
  foldl (λ acc i,
           '(total_L, ntotal, hidden) ← acc;
           '(data, target) ← get_batch data_source i;
           let '(hidden, L) := forward_loss hidden data target in
           Some ((total_L + sum_L L)%Qc, ntotal + length L, hidden))
        (totals_of acc) offsets
  = totals_of
      (foldl (λ acc i,
                '(Ls, hidden) ← acc;
                '(data, target) ← get_batch data_source i;
                let '(hidden, L) := forward_loss hidden data target in
                Some (Ls ++ [L], hidden))
             acc offsets).
Proof.
  revert acc. induction offsets as [|i offsets IH]; intros acc; [done|].
  cbn [foldl]. rewrite <- IH. f_equal.
  destruct acc as [[Ls hidden]|]; [|done]. cbn.
  destruct (get_batch data_source i) as [[data target]|]; [|done]. cbn.
  destruct (forward_loss hidden data target) as [hidden' L]. cbn.
  rewrite concat_app, sum_L_app, length_app. simpl. by rewrite app_nil_r.
Qed.

(** [eval] returns the sum of the per-prediction losses of all batches
    divided by their number. *)
Lemma eval_average hidden data_source :
  eval forward_loss hidden data_source
  = Ls ← eval_losses forward_loss hidden data_source;
    if decide (length (concat Ls) = 0) then None
    else Some (sum_L (concat Ls) / Qc_of_nat (length (concat Ls)))%Qc.
Proof.
  unfold eval, eval_losses.
  destruct (head (shape data_source)) as [d0|]; [|done]. step_bind.
  change (Some (0%Qc, 0, hidden)) with (totals_of (Some ([], hidden))).
  rewrite eval_loop_totals.
  destruct (foldl _ (Some ([], hidden)) _) as [[Ls hidden']|]; done.
Qed.

End Eval.

(** C8 at the failing input: a training set of 3536 rows (101 batches of
    [args_bptt] steps) on which every prediction has loss [1].  [eval]
    returns the average loss [1], but the log line of batch 100 takes the
    sum over 101 batches and divides by the size of 100: it reports the
    loss [1.01], and so the perplexity [exp(1.01)]. *)
Theorem first_log_line_overcounts :
  fmap (M := option) this (eval unit_loss () (corpus_of_rows 3536))
  = Some 1%Q
  ∧ fmap (M := option) (fmap (M := list) this)
      (train_epoch_log unit_loss () (corpus_of_rows 3536))
    = Some [(101 # 100)%Q].
Proof. split; vm_compute; reflexivity. Qed.

End PerplexityProps.

(** ** More on the vocabulary and the corpus *)

Section VocabularyMore.
Import Errors Tensor Vocabulary.

Lemma add_words_init_dom ws :
  dom (word2idx (add_words ws Dictionary_init)) = list_to_set ws.
Proof.
  rewrite add_words_dom. simpl. rewrite dom_empty_L. apply right_id_L, _.
Qed.

Lemma add_words_first_occurrences ws :
  idx2word (add_words ws Dictionary_init)
  = reverse (remove_dups (reverse ws)).
Proof.
  induction ws as [|w ws IH] using rev_ind; [done|].
  rewrite add_words_snoc, reverse_snoc. cbn [remove_dups].
  assert (Hiff : w ∈ reverse ws
                 ↔ is_Some (word2idx (add_words ws Dictionary_init) !! w)).
  { by rewrite elem_of_reverse, <- elem_of_dom, add_words_init_dom,
      elem_of_list_to_set. }
  destruct (decide_rel elem_of w (reverse ws)) as [Hin|Hnin].
  - apply Hiff in Hin as [i Hi]. by rewrite (add_word_present _ _ _ Hi).
  - destruct (word2idx (add_words ws Dictionary_init) !! w) as [i|] eqn:Hw.
    { exfalso. apply Hnin, Hiff. eauto. }
    rewrite (add_word_fresh _ _ Hw). cbn [snd idx2word].
    by rewrite reverse_cons, IH.
Qed.

(** X1. Indices are handed out in the order words first occur: [idx2word] is
    the list of distinct words in order of first occurrence, so it holds
    no word twice. *)
Theorem idx2word_first_occurrence_order (ws : list string) :
  idx2word (add_words ws Dictionary_init) = reverse (remove_dups (reverse ws))
  ∧ NoDup (idx2word (add_words ws Dictionary_init)).
Proof.
  split; [apply add_words_first_occurrences|].
  rewrite add_words_first_occurrences, reverse_Permutation.
  apply NoDup_remove_dups.
Qed.

Lemma add_word_keeps w d :
  (∀ w' i, word2idx d !! w' = Some i → word2idx (add_word w d).2 !! w' = Some i)
  ∧ idx2word d `prefix_of` idx2word (add_word w d).2.
Proof.
  destruct (word2idx d !! w) as [i|] eqn:Hw.
  - by rewrite (add_word_present _ _ _ Hw).
  - rewrite (add_word_fresh _ _ Hw). cbn [snd word2idx idx2word]. split.
    + intros w' i Hw'. rewrite lookup_insert_ne; [done|congruence].
    + by apply prefix_app_r.
Qed.

Lemma add_words_keeps ws d :
  (∀ w i, word2idx d !! w = Some i → word2idx (add_words ws d) !! w = Some i)
  ∧ idx2word d `prefix_of` idx2word (add_words ws d).
Proof.
  induction ws as [|w ws [IHw IHp]] using rev_ind; [done|].
  rewrite add_words_snoc.
  destruct (add_word_keeps w (add_words ws d)) as [Hw Hp]. split.
  - intros w' i Hi. by apply Hw, IHw.
  - by etrans.
Qed.

(** X2. Growing the dictionary never renumbers: a word that has an index
    keeps it through any further [add_word] calls, and [idx2word] only
    grows at its end. *)
Theorem add_word_never_renumbers (ws : list string) (d : Dictionary)
    (w : string) (i : nat) :
  word2idx d !! w = Some i →
  word2idx (add_words ws d) !! w = Some i
  ∧ idx2word d `prefix_of` idx2word (add_words ws d).
Proof.
  intros Hw. destruct (add_words_keeps ws d) as [Hkeep Hp].
  split; [by apply Hkeep|done].
Qed.

Lemma add_word_never_renumbers_witness :
  word2idx (add_words ["cat"; "the"; "dog"]
              (add_words ["the"; "cat"] Dictionary_init)) !! "cat" = Some 1.
Proof.
  apply (add_word_never_renumbers ["cat"; "the"; "dog"]
           (add_words ["the"; "cat"] Dictionary_init) "cat" 1).
  reflexivity.
Defined.

(** Second pass of [tokenize], with the contents of [ids]: slot
    [token + k] receives the index of the [k]-th word. *)
Lemma tokenize_second_pass_ids (d : Dictionary) ws ids token ids' n :
  foldl (λ acc word,
           '(ids, token) ←! acc;
           idx ←! framework "KeyError" (word2idx d !! word);
           ids ←! framework "IndexError"
                    (if decide (token < length ids)
                     then Some (<[token := idx]> ids) else None);
           Ok (ids, token + 1))
        (Ok (ids, token)) ws
  = Ok (ids', n) →
  (∀ k, k < token → ids' !! k = ids !! k)
  ∧ ∀ k w, ws !! k = Some w →
      ∃ idx, word2idx d !! w = Some idx ∧ ids' !! (token + k) = Some idx.
Proof.
  revert ids token. induction ws as [|w ws IH]; intros ids token.
  - simpl. intros [= <- <-]. split; [done|]. intros k w Hk.
    by rewrite lookup_nil in Hk.
  - cbn [foldl result_bind].
    destruct (word2idx d !! w) as [idx|] eqn:Hidx; cbn [framework result_bind].
    2:{ intros Hfold. exfalso. revert Hfold. clear.
        induction ws as [|w' ws IHws]; [done|]. exact IHws. }
    case_decide as Hlt; cbn [framework result_bind].
    2:{ intros Hfold. exfalso. revert Hfold. clear.
        induction ws as [|w' ws IHws]; [done|]. exact IHws. }
    intros Hfold. destruct (IH _ _ Hfold) as [Hbefore Hafter]. split.
    + intros k Hk. rewrite Hbefore by lia.
      apply list_lookup_insert_ne. lia.
    + intros [|k] w' Hk.
      * simpl in Hk. injection Hk as <-. exists idx. split; [done|].
        rewrite Nat.add_0_r, Hbefore by lia.
        by apply list_lookup_insert_eq.
      * simpl in Hk. destruct (Hafter k w' Hk) as (idx' & Hi & Hl).
        exists idx'. split; [done|].
        by replace (token + S k) with (token + 1 + k) by lia.
Qed.

Lemma tokenize_decodes fs path d lines :
  fs !! path = Some (Readable lines) → tables_agree d →
  ∃ ids,
    tokenize fs path d = Ok (array1 ids, add_words (file_words lines) d)
    ∧ Forall2 (λ id w, idx2word (add_words (file_words lines) d) !! id
                       = Some w)
        ids (file_words lines).
Proof.
  intros Hpath Hd. unfold tokenize. rewrite Hpath, tokenize_first_pass.
  set (d' := add_words (file_words lines) d).
  destruct (tokenize_second_pass d' (file_words lines)
              (replicate (0 + length (file_words lines)) 0) 0)
    as (ids & Hfold & Hlen).
  { intros w Hw. apply elem_of_dom. unfold d'. rewrite add_words_dom.
    apply elem_of_union_l. by apply elem_of_list_to_set. }
  { by rewrite length_replicate. }
  exists ids. rewrite Hfold. cbn [result_bind]. split; [done|].
  destruct (tokenize_second_pass_ids _ _ _ _ _ _ Hfold) as [_ Hids].
  rewrite length_replicate in Hlen.
  apply Forall2_same_length_lookup. split; [done|].
  intros k id w Hid Hw. destruct (Hids k w Hw) as (idx & Hidx & Hk).
  simpl in Hk. rewrite Hid in Hk. injection Hk as ->.
  by apply (add_words_agree (file_words lines) d Hd).
Qed.

(** X3. [tokenize] on an existing file returns one index per word of the
    file, each line closed by ['<eos>'], and looking the indices up in
    [idx2word] gives the words back in order. *)
Theorem tokenize_round_trip fs path (d : Dictionary) lines :
  fs !! path = Some (Readable lines) → tables_agree d →
  ∃ ids,
    tokenize fs path d = Ok (array1 ids, add_words (file_words lines) d)
    ∧ length ids = length (file_words lines)
    ∧ Forall2 (λ id w, idx2word (add_words (file_words lines) d) !! id
                       = Some w)
        ids (file_words lines).
Proof.
  intros Hpath Hd.
  destruct (tokenize_decodes fs path d lines Hpath Hd) as (ids & Htok & Hdec).
  exists ids. split; [done|]. split; [|done].
  by eapply Forall2_length.
Qed.

Lemma tokenize_round_trip_witness :
  ∃ ids,
    tokenize {[ "f.txt" := Readable [["a"; "b"]; ["b"]] ]} "f.txt"
      Dictionary_init
    = Ok (array1 ids, add_words ["a"; "b"; "<eos>"; "b"; "<eos>"]
                        Dictionary_init)
    ∧ length ids = 5.
Proof.
  destruct (tokenize_round_trip
              {[ "f.txt" := Readable [["a"; "b"]; ["b"]] ]} "f.txt"
              Dictionary_init [["a"; "b"]; ["b"]])
    as (ids & Htok & Hlen & _); [reflexivity|apply tables_agree_init|].
  exists ids. split; [exact Htok|exact Hlen].
Defined.

Lemma decodes_after_growth (d : Dictionary) ws ids words :
  Forall2 (λ id w, idx2word d !! id = Some w) ids words →
  Forall2 (λ id w, idx2word (add_words ws d) !! id = Some w) ids words.
Proof.
  intros Hdec. eapply Forall2_impl; [exact Hdec|]. intros id w Hid.
  destruct (add_words_keeps ws d) as [_ Hp]. simpl in *.
  exact (prefix_lookup_Some _ _ _ _ Hid Hp).
Qed.

(** X4. With the three files present, [Corpus(path)] succeeds.  Its dictionary
    is the one obtained by adding the words of the training, validation
    and test files in that order, its length is the number of distinct
    words, and each of the three index arrays still decodes, through the
    final [idx2word], to the words of its file. *)
Theorem Corpus_init_decodes fs path l1 l2 l3 :
  fs !! (path +:+ "train.txt") = Some (Readable l1) →
  fs !! (path +:+ "valid.txt") = Some (Readable l2) →
  fs !! (path +:+ "test.txt") = Some (Readable l3) →
  ∃ c,
    Corpus_init fs path = Ok c
    ∧ dictionary c
      = add_words (file_words l1 ++ file_words l2 ++ file_words l3)
          Dictionary_init
    ∧ Dictionary_len (dictionary c)
      = size (list_to_set
                (file_words l1 ++ file_words l2 ++ file_words l3)
              : gset string)
    ∧ Forall2 (λ id w, idx2word (dictionary c) !! id = Some w)
        (data (train c)) (file_words l1)
    ∧ Forall2 (λ id w, idx2word (dictionary c) !! id = Some w)
        (data (valid c)) (file_words l2)
    ∧ Forall2 (λ id w, idx2word (dictionary c) !! id = Some w)
        (data (test c)) (file_words l3).
Proof.
  intros H1 H2 H3. unfold Corpus_init.
  set (d1 := add_words (file_words l1) Dictionary_init).
  set (d2 := add_words (file_words l2) d1).
  set (d3 := add_words (file_words l3) d2).
  assert (Ha1 : tables_agree d1) by apply add_words_agree, tables_agree_init.
  assert (Ha2 : tables_agree d2) by by apply add_words_agree.
  destruct (tokenize_decodes _ _ Dictionary_init _ H1 tables_agree_init)
    as (ids1 & -> & Hd1).
  cbn [result_bind]. fold d1 in Hd1 |- *.
  destruct (tokenize_decodes _ _ d1 _ H2 Ha1) as (ids2 & -> & Hd2).
  cbn [result_bind]. fold d2 in Hd2 |- *.
  destruct (tokenize_decodes _ _ d2 _ H3 Ha2) as (ids3 & -> & Hd3).
  cbn [result_bind]. fold d3 in Hd3 |- *.
  eexists. split; [done|]. cbn [dictionary train valid test data array1].
  assert (Hd : d3 = add_words
                     (file_words l1 ++ file_words l2 ++ file_words l3)
                     Dictionary_init).
  { unfold d3, d2, d1. by rewrite !add_words_app. }
  split; [done|]. split; [|split; [|split]].
  - rewrite Hd. unfold Dictionary_len.
    rewrite <- add_words_init_dom, size_dom. by apply add_words_size.
  - unfold d3, d2. by do 2 apply decodes_after_growth.
  - unfold d3. by apply decodes_after_growth.
  - done.
Qed.

Lemma Corpus_init_decodes_witness :
  ∃ c,
    Corpus_init {[ "p.train.txt" := Readable [["a"; "b"]];
                   "p.valid.txt" := Readable [["b"; "c"]];
                   "p.test.txt" := Readable [["a"]] ]} "p." = Ok c
    ∧ Dictionary_len (dictionary c) = 4.
Proof.
  destruct (Corpus_init_decodes
              {[ "p.train.txt" := Readable [["a"; "b"]];
                 "p.valid.txt" := Readable [["b"; "c"]];
                 "p.test.txt" := Readable [["a"]] ]} "p."
              [["a"; "b"]] [["b"; "c"]] [["a"]])
    as (c & Hc & _ & Hlen & _); [reflexivity|reflexivity|reflexivity|].
  exists c. split; [exact Hc|]. rewrite Hlen. vm_compute. reflexivity.
Defined.

End VocabularyMore.

(** ** More on the optimizer and the forward passes *)

Section OptimizerMore.
Import CharRNN.

Lemma option_fmap_iter_succ {B} (f : B → B) n (o : option B) :
  Nat.iter n f <$> (f <$> o) = Nat.iter (S n) f <$> o.
Proof.
  destruct o as [x|]; [|done]. simpl. f_equal.
  induction n as [|n IH]; [done|]. simpl. by rewrite IH.
Qed.

Lemma grad_iter_sgd_update {T} `{NDArith T} lr n (param : Param T) :
  grad (Nat.iter n (sgd_update lr) param) = grad param.
Proof. induction n as [|n IH]; [done|]. simpl. exact IH. Qed.

(** X5. [SGD] updates an array once for every time the list names it, reads
    but never writes a gradient, and leaves an array the list does not
    name as it is (zero updates). *)
Theorem SGD_once_per_occurrence {T} `{NDArith T} (params : list nat)
    (lr : Qc) (store : gmap nat (Param T)) (r : nat) :
  SGD params lr store !! r
  = Nat.iter (length (filter (λ param, param = r) params)) (sgd_update lr)
      <$> store !! r
  ∧ grad <$> SGD params lr store !! r = grad <$> store !! r.
Proof.
  assert (Hmain : ∀ store : gmap nat (Param T),
    SGD params lr store !! r
    = Nat.iter (length (filter (λ param, param = r) params)) (sgd_update lr)
        <$> store !! r).
  { induction params as [|param params IH]; intros st.
    - simpl. by destruct (st !! r).
    - rewrite SGD_cons, IH. rewrite filter_cons. case_decide as Heq.
      + subst param. rewrite lookup_alter_eq. simpl length.
        apply option_fmap_iter_succ.
      + by rewrite lookup_alter_ne. }
  split; [apply Hmain|]. rewrite Hmain.
  destruct (store !! r) as [param|]; [|done]. simpl.
  by rewrite grad_iter_sgd_update.
Qed.

End OptimizerMore.

Section ForwardMore.
Import CharRNN.
Context {T : Type} `{NDArith T} `{NDFun T}.

Lemma simple_rnn_app p (xs ys : list T) state temperature :
  SimpleRNN.simple_rnn p (xs ++ ys) state temperature
  = let '(outputs1, h1) := SimpleRNN.simple_rnn p xs state temperature in
    let '(outputs2, h2) := SimpleRNN.simple_rnn p ys h1 temperature in
    (outputs1 ++ outputs2, h2).
Proof.
  induction ys as [|y ys IH] using rev_ind.
  - rewrite app_nil_r.
    destruct (SimpleRNN.simple_rnn p xs state temperature) as [o1 h1].
    simpl. by rewrite app_nil_r.
  - rewrite app_assoc, simple_rnn_snoc, IH.
    destruct (SimpleRNN.simple_rnn p xs state temperature) as [o1 h1].
    rewrite simple_rnn_snoc.
    destruct (SimpleRNN.simple_rnn p ys h1 temperature) as [o2 h2].
    cbn beta iota zeta. by rewrite <- app_assoc.
Qed.

Lemma gru_rnn_app p (xs ys : list T) h temperature :
  GRURNN.gru_rnn p (xs ++ ys) h temperature
  = let '(outputs1, h1) := GRURNN.gru_rnn p xs h temperature in
    let '(outputs2, h2) := GRURNN.gru_rnn p ys h1 temperature in
    (outputs1 ++ outputs2, h2).
Proof.
  induction ys as [|y ys IH] using rev_ind.
  - rewrite app_nil_r.
    destruct (GRURNN.gru_rnn p xs h temperature) as [o1 h1].
    simpl. by rewrite app_nil_r.
  - rewrite app_assoc, gru_rnn_snoc, IH.
    destruct (GRURNN.gru_rnn p xs h temperature) as [o1 h1].
    rewrite gru_rnn_snoc.
    destruct (GRURNN.gru_rnn p ys h1 temperature) as [o2 h2].
    cbn beta iota zeta. by rewrite <- app_assoc.
Qed.

(** X6. Feeding a sequence in two consecutive pieces, the second started from
    the hidden state the first returned, gives the outputs and the final
    state of feeding it whole; this is what the training loops and
    [sample] rely on when they carry the state from call to call. *)
Theorem forward_pass_in_pieces :
  (∀ p (xs ys : list T) state temperature,
     SimpleRNN.simple_rnn p (xs ++ ys) state temperature
     = let '(outputs1, h1) := SimpleRNN.simple_rnn p xs state temperature in
       let '(outputs2, h2) := SimpleRNN.simple_rnn p ys h1 temperature in
       (outputs1 ++ outputs2, h2))
  ∧ (∀ p (xs ys : list T) h temperature,
       GRURNN.gru_rnn p (xs ++ ys) h temperature
       = let '(outputs1, h1) := GRURNN.gru_rnn p xs h temperature in
         let '(outputs2, h2) := GRURNN.gru_rnn p ys h1 temperature in
         (outputs1 ++ outputs2, h2)).
Proof.
  split; intros; [apply simple_rnn_app|apply gru_rnn_app].
Qed.

End ForwardMore.

(** ** More on encoding and decoding characters *)

Section CharCodecMore.
Import Tensor CharCodec.

Lemma argmax_from_bound best besti i l :
  besti < i → argmax_from best besti i l < i + length l.
Proof.
  revert best besti i. induction l as [|x l IH]; intros best besti i Hlt.
  - simpl. lia.
  - simpl. destruct (best ?= x)%Qc.
    + specialize (IH best besti (S i)). lia.
    + specialize (IH x i (S i)). lia.
    + specialize (IH best besti (S i)). lia.
Qed.

Lemma argmax_bound v k : argmax v = Some k → k < length (data v).
Proof.
  unfold argmax. destruct (shape v) as [|? [|? ?]]; try done.
  destruct (data v) as [|x l]; [done|]. intros [= <-].
  pose proof (argmax_from_bound x 0 1 l). simpl. lia.
Qed.

Lemma string_length_snoc s c :
  String.length (s +:+ String c EmptyString) = S (String.length s).
Proof. induction s as [|c' s IH]; simpl; [done|]. by rewrite IH. Qed.

Lemma textify_step_defined character_list v :
  decodable character_list v →
  ∃ c, (vector0 ← getitem v 0; k ← argmax vector0; character_list !! k)
       = Some c.
Proof.
  intros (r & c & Hshape & Hr & Hc1 & Hc2 & Hlen).
  unfold getitem. rewrite Hshape. rewrite decide_True by lia.
  rewrite numel_vec. change (0 * c) with 0. rewrite drop_0. step_bind.
  destruct (argmax (mkNDArray [c] (take c (data v)))) as [k|] eqn:Hk.
  - step_bind. apply argmax_bound in Hk. cbn [data] in Hk.
    rewrite length_take in Hk.
    destruct (lookup_lt_is_Some_2 character_list k) as [ch Hch]; [lia|].
    eauto.
  - exfalso. unfold argmax in Hk. cbn [shape data] in Hk.
    destruct (take c (data v)) as [|x l] eqn:Ht; [|done].
    apply (f_equal length) in Ht. rewrite length_take in Ht. simpl in Ht.
    nia.
Qed.

Lemma textify_defined character_list vs :
  Forall (decodable character_list) vs →
  ∃ s, textify character_list vs = Some s ∧ String.length s = length vs.
Proof.
  induction vs as [|v vs IH] using rev_ind; intros Hvs.
  - by exists EmptyString.
  - apply Forall_app in Hvs as [Hvs Hv%Forall_inv].
    destruct (IH Hvs) as (s & Hs & Hlen).
    destruct (textify_step_defined _ _ Hv) as [c Hc].
    exists (s +:+ String c EmptyString). split.
    + rewrite textify_snoc, Hs. step_bind.
      destruct (getitem v 0) as [vector0|]; simpl in Hc; [|done]. step_bind.
      destruct (argmax vector0) as [k|]; simpl in Hc; [|done]. step_bind.
      by rewrite Hc.
    + rewrite string_length_snoc, length_app, Hlen. simpl. lia.
Qed.

(** X7. [textify] decodes any list of arrays with at least one row of between
    one and [len(character_list)] entries (not only one-hot rows, also the
    network's outputs): it succeeds and returns one character per array. *)
Theorem textify_one_character_each (character_list : list ascii)
    (vector_list : list (NDArray Qc)) :
  Forall (decodable character_list) vector_list →
  ∃ s, textify character_list vector_list = Some s
       ∧ String.length s = length vector_list.
Proof. apply textify_defined. Qed.

Lemma textify_one_character_each_witness :
  ∃ s, textify ["a"; "b"; "c"]%char
         [mkNDArray [1; 3] [Q2Qc (1 # 5); Q2Qc (1 # 2); Q2Qc (3 # 10)];
          mkNDArray [2; 2] [1%Qc; 0%Qc; 0%Qc; 1%Qc]] = Some s
       ∧ String.length s = 2.
Proof.
  apply (textify_one_character_each ["a"; "b"; "c"]%char).
  repeat constructor.
  - exists 1, 3. simpl. repeat split; lia.
  - exists 2, 2. simpl. repeat split; lia.
Defined.

Lemma numerical_Some_iff character_list (cs : list ascii) :
  is_Some (mapM (λ char, character_dict character_list !! char) cs)
  ↔ ∀ c, c ∈ cs → c ∈ character_list.
Proof.
  rewrite mapM_is_Some, Forall_forall. split.
  - intros Hcs c Hc. destruct (Hcs c Hc) as [e He]. simpl in He.
    apply character_dict_sound in He. by eapply list_elem_of_lookup_2.
  - intros Hcs c Hc. by apply character_dict_complete, Hcs.
Qed.

(** X8. Encoding a text fails (the dictionary lookup raises) exactly when the
    text has a character that is not in [character_list]; when it
    succeeds it gives one index per character, each below
    [len(character_list)], so [one_hots] accepts every one of them. *)
Theorem numerical_defined_iff (character_list : list ascii) (text : string) :
  (is_Some (numerical character_list text)
   ↔ ∀ c, c ∈ String.list_ascii_of_string text → c ∈ character_list)
  ∧ ∀ ixs, numerical character_list text = Some ixs →
      length ixs = String.length text
      ∧ Forall (λ idx, idx < length character_list) ixs
      ∧ is_Some (one_hots ixs (length character_list)).
Proof.
  split; [apply numerical_Some_iff|].
  intros ixs Hixs. unfold numerical in Hixs.
  apply mapM_Some in Hixs.
  assert (Hrange : Forall (λ idx, idx < length character_list) ixs).
  { apply Forall_forall. intros idx Hidx.
    apply list_elem_of_lookup in Hidx as [k Hk].
    destruct (Forall2_lookup_r _ _ _ _ _ Hixs Hk) as (c & _ & Hc).
    apply character_dict_sound in Hc. by eapply lookup_lt_Some. }
  split; [|split; [done|]].
  - apply Forall2_length in Hixs. rewrite <- Hixs.
    clear. induction text as [|c text IH]; simpl; [done|]. by rewrite IH.
  - rewrite one_hots_in_range by done. eauto.
Qed.

Lemma numerical_defined_iff_witness :
  numerical ["a"; "b"]%char "abz" = None
  ∧ ∃ ixs, numerical ["a"; "b"]%char "abba" = Some ixs ∧ length ixs = 4.
Proof.
  destruct (numerical_defined_iff ["a"; "b"]%char "abz") as [Hiff _].
  destruct (numerical_defined_iff ["a"; "b"]%char "abba") as [Hiff' Hlen].
  split.
  - destruct (numerical ["a"; "b"]%char "abz") as [ixs|] eqn:Hn; [|done].
    exfalso. assert (Hz : "z"%char ∈ ["a"; "b"]%char).
    { apply Hiff; [eauto|]. apply list_elem_of_In. simpl. tauto. }
    apply list_elem_of_In in Hz. simpl in Hz.
    destruct Hz as [Hz|[Hz|[]]]; discriminate Hz.
  - destruct Hiff' as [_ Hsome].
    destruct Hsome as [ixs Hixs].
    { intros c Hc. apply list_elem_of_In in Hc. apply list_elem_of_In.
      simpl in *. intuition. }
    exists ixs. split; [done|]. by apply Hlen.
Defined.

Lemma character_dict_of_distinct character_list e c :
  NoDup character_list →
  character_list !! e = Some c → character_dict character_list !! c = Some e.
Proof.
  intros Hnd He.
  destruct (character_dict_complete character_list c) as [e' He'];
    [by eapply list_elem_of_lookup_2|].
  rewrite He'. f_equal.
  apply character_dict_sound in He'.
  by eapply NoDup_lookup.
Qed.

(** X17. The dictionary built from [character_list] always maps a
    character to a position that holds it; when the list has no repeated
    character (it comes from a set) the two are inverse to each other:
    [character_dict[c] = e] exactly when [character_list[e] = c]. *)
Theorem character_dict_inverts_list (character_list : list ascii)
    (e : nat) (c : ascii) :
  (character_dict character_list !! c = Some e →
   character_list !! e = Some c)
  ∧ (NoDup character_list →
     character_list !! e = Some c →
     character_dict character_list !! c = Some e).
Proof.
  split; [apply character_dict_sound|].
  intros Hnd He. by apply character_dict_of_distinct.
Qed.

Lemma character_dict_inverts_list_witness :
  character_dict ["x"; "y"; "z"]%char !! "y"%char = Some 1.
Proof.
  apply (character_dict_inverts_list ["x"; "y"; "z"]%char 1 "y"%char).
  - apply NoDup_ListNoDup. repeat constructor; simpl; intuition discriminate.
  - reflexivity.
Defined.

End CharCodecMore.

(** ** Sequences and batches of the character notebooks *)

Section DataPrepProps.
Import Tensor CharCodec DataPrep.

Lemma mapM_seq_Some {B} (g : nat → option B) n :
  (∀ i, i < n → is_Some (g i)) →
  ∃ ys, mapM g (seq 0 n) = Some ys ∧ length ys = n
        ∧ ∀ i, i < n → ys !! i = g i.
Proof.
  intros Hg.
  assert (Hsome : is_Some (mapM g (seq 0 n))).
  { apply mapM_is_Some, Forall_forall. intros i Hi%elem_of_seq.
    apply Hg. lia. }
  destruct Hsome as [ys Hys]. exists ys. split; [done|].
  apply mapM_Some in Hys.
  pose proof (Forall2_length _ _ _ Hys) as Hlen. rewrite length_seq in Hlen.
  split; [done|]. intros i Hi.
  destruct (Forall2_lookup_l _ _ _ i i Hys) as (y & Hy & Hgi).
  { by apply lookup_seq_lt. }
  by rewrite Hy, Hgi.
Qed.

Lemma py_slice_length {A} (l : list A) start stop :
  stop ≤ length l → length (py_slice l start stop) = stop - start.
Proof.
  intros Hstop. unfold py_slice. rewrite length_take, length_drop. lia.
Qed.

Lemma py_slice_lookup {A} (l : list A) start stop k :
  k < stop - start → py_slice l start stop !! k = l !! (start + k).
Proof.
  intros Hk. unfold py_slice. by rewrite lookup_take_lt, lookup_drop by done.
Qed.

Lemma py_slice_Forall {A} (P : A → Prop) (l : list A) start stop :
  Forall P l → Forall P (py_slice l start stop).
Proof. intros Hl. unfold py_slice. by apply Forall_take, Forall_drop. Qed.

Lemma num_sequences_bound time_numerical seq_length i :
  i < num_sequences time_numerical seq_length →
  (i + 1) * seq_length + 1 ≤ length time_numerical.
Proof.
  unfold num_sequences. intros Hi.
  pose proof (Nat.Div0.mul_div_le (length time_numerical - 1) seq_length).
  destruct (length time_numerical); [simpl in Hi; rewrite Nat.Div0.div_0_l in Hi; lia|].
  nia.
Qed.

(** One chunk of the text, encoded: all [seq_length] entries are there. *)
Lemma chunk_one_hots time_numerical vocab_size seq_length i off :
  Forall (λ idx, idx < vocab_size) time_numerical →
  (i + 1) * seq_length + off ≤ length time_numerical →
  ∃ sequence,
    one_hots (py_slice time_numerical (i * seq_length + off)
                ((i + 1) * seq_length + off)) vocab_size
    = Some sequence
    ∧ length sequence = seq_length
    ∧ ∀ k, k < seq_length →
        ∃ x, time_numerical !! (i * seq_length + off + k) = Some x
             ∧ sequence !! k = Some (one_hot_row vocab_size x).
Proof.
  intros Hrange Hlen.
  rewrite one_hots_in_range by by apply py_slice_Forall.
  eexists. split; [done|]. split.
  - rewrite length_fmap, py_slice_length by lia. lia.
  - intros k Hk.
    destruct (lookup_lt_is_Some_2 time_numerical (i * seq_length + off + k))
      as [x Hx]; [lia|].
    exists x. split; [done|].
    rewrite list_lookup_fmap, py_slice_lookup by lia. by rewrite Hx.
Qed.

Lemma dataset_labels_cells (time_numerical : list nat)
    (vocab_size seq_length : nat) :
  0 < seq_length →
  Forall (λ idx, idx < vocab_size) time_numerical →
  ∃ ds ls,
    dataset time_numerical vocab_size seq_length = Some ds
    ∧ labels time_numerical vocab_size seq_length = Some ls
    ∧ length ds = num_sequences time_numerical seq_length
    ∧ length ls = num_sequences time_numerical seq_length
    ∧ ∀ i, i < num_sequences time_numerical seq_length →
        ∃ input label,
          ds !! i = Some input ∧ ls !! i = Some label
          ∧ length input = seq_length ∧ length label = seq_length
          ∧ ∀ k, k < seq_length →
              ∃ x y,
                time_numerical !! (i * seq_length + k) = Some x
                ∧ time_numerical !! (i * seq_length + k + 1) = Some y
                ∧ input !! k = Some (one_hot_row vocab_size x)
                ∧ label !! k = Some (one_hot_row vocab_size y).
Proof.
  intros Hq Hrange. unfold dataset, labels.
  rewrite !decide_False by lia.
  set (n := num_sequences time_numerical seq_length).
  destruct (mapM_seq_Some
    (λ i, one_hots (py_slice time_numerical (i * seq_length)
                      ((i + 1) * seq_length)) vocab_size) n)
    as (ds & Hds & Hdlen & Hdat).
  { intros i Hi%num_sequences_bound.
    destruct (chunk_one_hots time_numerical vocab_size seq_length i 0)
      as (sq & Hsq & _); [done|lia|].
    rewrite !Nat.add_0_r in Hsq. eauto. }
  destruct (mapM_seq_Some
    (λ i, one_hots (py_slice time_numerical (i * seq_length + 1)
                      ((i + 1) * seq_length + 1)) vocab_size) n)
    as (ls & Hls & Hllen & Hlat).
  { intros i Hi%num_sequences_bound.
    destruct (chunk_one_hots time_numerical vocab_size seq_length i 1)
      as (sq & Hsq & _); [done|lia|]. eauto. }
  exists ds, ls. split; [done|]. split; [done|].
  split; [done|]. split; [done|].
  intros i Hi. pose proof (num_sequences_bound _ _ _ Hi) as Hb.
  destruct (chunk_one_hots time_numerical vocab_size seq_length i 0)
    as (input & Hin & Hinlen & Hinat); [done|lia|].
  destruct (chunk_one_hots time_numerical vocab_size seq_length i 1)
    as (label & Hlab & Hlablen & Hlabat); [done|lia|].
  rewrite !Nat.add_0_r in Hin.
  exists input, label.
  split; [by rewrite Hdat, Hin|]. split; [by rewrite Hlat, Hlab|].
  split; [done|]. split; [done|].
  intros k Hk. destruct (Hinat k Hk) as (x & Hx & Hxk).
  destruct (Hlabat k Hk) as (y & Hy & Hyk).
  rewrite Nat.add_0_r in Hx.
  exists x, y. split; [done|]. split; [|done].
  by replace (i * seq_length + k + 1) with (i * seq_length + 1 + k) by lia.
Qed.

(** X9. The labels are the inputs moved on by one character.  For a positive
    [seq_length] and indices all below [vocab_size], [dataset] and
    [labels] are built without error, each with
    [(len(time_numerical) - 1) // seq_length] sequences of exactly
    [seq_length] one-hot rows; element [k] of input sequence [i] encodes
    character [i * seq_length + k] of the text and the same element of the
    label sequence encodes character [i * seq_length + k + 1]. *)
Theorem labels_are_inputs_shifted (time_numerical : list nat)
    (vocab_size seq_length : nat) :
  0 < seq_length →
  Forall (λ idx, idx < vocab_size) time_numerical →
  ∃ ds ls,
    dataset time_numerical vocab_size seq_length = Some ds
    ∧ labels time_numerical vocab_size seq_length = Some ls
    ∧ length ds = num_sequences time_numerical seq_length
    ∧ length ls = num_sequences time_numerical seq_length
    ∧ ∀ i, i < num_sequences time_numerical seq_length →
        ∃ input label,
          ds !! i = Some input ∧ ls !! i = Some label
          ∧ length input = seq_length ∧ length label = seq_length
          ∧ ∀ k, k < seq_length →
              ∃ x y,
                time_numerical !! (i * seq_length + k) = Some x
                ∧ time_numerical !! (i * seq_length + k + 1) = Some y
                ∧ input !! k = Some (one_hot_row vocab_size x)
                ∧ label !! k = Some (one_hot_row vocab_size y).
Proof. apply dataset_labels_cells. Qed.

Lemma labels_are_inputs_shifted_witness :
  ∃ ds ls,
    dataset [0; 1; 2; 0; 1; 2; 0] 3 2 = Some ds
    ∧ labels [0; 1; 2; 0; 1; 2; 0] 3 2 = Some ls
    ∧ length ds = 3 ∧ length ls = 3.
Proof.
  destruct (labels_are_inputs_shifted [0; 1; 2; 0; 1; 2; 0] 3 2)
    as (ds & ls & Hds & Hls & Hdl & Hll & _).
  { lia. }
  { repeat constructor. }
  exists ds, ls. repeat split; done.
Defined.

Lemma bind_chunk {B C} (f : B → list C) (l : list B) n k x :
  (∀ y, y ∈ l → length (f y) = n) → l !! k = Some x →
  take n (drop (k * n) (l ≫= f)) = f x.
Proof.
  revert k. induction l as [|y l IH]; intros k Hlen Hk; [done|].
  rewrite bind_cons. destruct k as [|k]; simpl in Hk.
  - injection Hk as ->. change (0 * n) with 0. rewrite drop_0.
    rewrite take_app_length'; [done|]. symmetry. apply Hlen. by left.
  - replace (S k * n) with (length (f y) + k * n)
      by (rewrite (Hlen y) by (by left); lia).
    rewrite drop_app_add. apply IH; [|done].
    intros z Hz. apply Hlen. by right.
Qed.

Lemma sum_list_ones {B} (l : list B) :
  sum_list ((λ _, 1) <$> l) = length l.
Proof. induction l as [|x l IH]; [done|]. simpl. f_equal. exact IH. Qed.

Lemma concatenate_rows {A} (rows : list (NDArray A)) V :
  rows ≠ [] → Forall (λ a, shape a = [1; V]) rows →
  concatenate rows = Some (mkNDArray [length rows; V] (rows ≫= data)).
Proof.
  intros Hne Hrows. unfold concatenate.
  destruct rows as [|first rows']; [done|]. cbn [head]. step_bind.
  pose proof (Forall_inv Hrows) as Hfirst. simpl in Hfirst. rewrite Hfirst.
  remember (first :: rows') as rows eqn:Hr. clear Hr.
  assert (Hm : mapM (λ a, match shape a with
                          | r :: rest' =>
                              if decide (rest' = [V]) then Some r else None
                          | [] => None
                          end) rows
               = Some ((λ _, 1) <$> rows)).
  { apply mapM_Some, Forall2_fmap_r, Forall_Forall2_diag.
    eapply Forall_impl; [exact Hrows|]. intros a Ha. simpl in *.
    rewrite Ha. by rewrite decide_True. }
  rewrite Hm. step_bind. by rewrite sum_list_ones.
Qed.

Lemma stack_cell_rows {A} (datasets : list (list (list (NDArray A))))
    S E V s elem :
  rectangular datasets S E V → s < S → elem < E →
  ∃ rows,
    mapM (λ ds, sequence ← ds !! s;
                array ← sequence !! elem;
                Some (reshape_row array)) datasets = Some rows
    ∧ length rows = length datasets
    ∧ Forall (λ a, shape a = [1; V] ∧ length (data a) = V) rows
    ∧ ∀ b ds sequence a,
        datasets !! b = Some ds → ds !! s = Some sequence →
        sequence !! elem = Some a → rows !! b = Some (reshape_row a).
Proof.
  intros Hrect Hs He.
  assert (Hcell : ∀ ds, ds ∈ datasets →
            ∃ sequence a, ds !! s = Some sequence
                          ∧ sequence !! elem = Some a
                          ∧ length (data a) = V).
  { intros ds Hds. unfold rectangular in Hrect.
    rewrite Forall_forall in Hrect. destruct (Hrect ds Hds) as [Hlen Hsq].
    destruct (lookup_lt_is_Some_2 ds s) as [sequence Hsequence]; [lia|].
    rewrite Forall_forall in Hsq.
    destruct (Hsq sequence) as [Hlen' Ha];
      [by eapply list_elem_of_lookup_2|].
    destruct (lookup_lt_is_Some_2 sequence elem) as [a Helem]; [lia|].
    rewrite Forall_forall in Ha. exists sequence, a.
    split; [done|]. split; [done|].
    apply Ha. by eapply list_elem_of_lookup_2. }
  assert (Hsome : is_Some (mapM (λ ds, sequence ← ds !! s;
                                       array ← sequence !! elem;
                                       Some (reshape_row array)) datasets)).
  { apply mapM_is_Some, Forall_forall. intros ds Hds.
    destruct (Hcell ds Hds) as (sequence & a & H1 & H2 & _).
    simpl. rewrite H1. step_bind. rewrite H2. step_bind. eauto. }
  destruct Hsome as [rows Hrows]. exists rows. split; [done|].
  apply mapM_Some in Hrows.
  split; [symmetry; by eapply Forall2_length|]. split.
  - apply Forall_forall. intros row Hrow.
    apply list_elem_of_lookup in Hrow as [b Hb].
    destruct (Forall2_lookup_r _ _ _ _ _ Hrows Hb) as (ds & Hds & Hrow).
    destruct (Hcell ds) as (sequence & a & H1 & H2 & Hlen);
      [by eapply list_elem_of_lookup_2|].
    simpl in Hrow. rewrite H1 in Hrow. cbn [mbind option_bind] in Hrow.
    rewrite H2 in Hrow. injection Hrow as <-.
    unfold reshape_row; cbn [shape data]. by rewrite Hlen.
  - intros b ds sequence a Hds H1 H2.
    destruct (Forall2_lookup_l _ _ _ _ _ Hrows Hds) as (row & Hb & Hrow).
    simpl in Hrow. rewrite H1 in Hrow. cbn [mbind option_bind] in Hrow.
    rewrite H2 in Hrow. by injection Hrow as <-.
Qed.

Lemma stack_cell {A} (datasets : list (list (list (NDArray A))))
    S E V s elem :
  datasets ≠ [] → rectangular datasets S E V → s < S → elem < E →
  ∃ stacked,
    (rows ← mapM (λ ds, sequence ← ds !! s;
                        array ← sequence !! elem;
                        Some (reshape_row array)) datasets;
     concatenate rows) = Some stacked
    ∧ shape stacked = [length datasets; V]
    ∧ ∀ b ds sequence a,
        datasets !! b = Some ds → ds !! s = Some sequence →
        sequence !! elem = Some a →
        data <$> getitem stacked b = Some (data a).
Proof.
  intros Hne Hrect Hs He.
  destruct (stack_cell_rows datasets S E V s elem Hrect Hs He)
    as (rows & -> & Hlen & Hshape & Hrow).
  step_bind. rewrite (concatenate_rows rows V).
  - eexists. split; [done|]. cbn [shape]. split; [by rewrite Hlen|].
    intros b ds sequence a Hds H1 H2.
    pose proof (Hrow b ds sequence a Hds H1 H2) as Hb.
    unfold getitem; cbn [shape data].
    rewrite decide_True by (apply lookup_lt_Some in Hb; lia).
    rewrite numel_vec. simpl. f_equal.
    rewrite (bind_chunk data rows V b (reshape_row a)); [done| |done].
    intros row Hin. rewrite Forall_forall in Hshape.
    by apply Hshape.
  - destruct datasets; [done|]. by destruct rows.
  - eapply Forall_impl; [exact Hshape|]. by intros a [? _].
Qed.

Lemma stack_the_datasets_cells {A} (datasets : list (list (list (NDArray A))))
    (S E V : nat) :
  datasets ≠ [] → rectangular datasets S E V →
  ∃ full_dataset,
    stack_the_datasets datasets = Some full_dataset
    ∧ length full_dataset = S
    ∧ ∀ s elem, s < S → elem < E →
        ∃ sequence stacked,
          full_dataset !! s = Some sequence
          ∧ length sequence = E
          ∧ sequence !! elem = Some stacked
          ∧ shape stacked = [length datasets; V]
          ∧ ∀ b ds sequence_b a,
              datasets !! b = Some ds → ds !! s = Some sequence_b →
              sequence_b !! elem = Some a →
              data <$> getitem stacked b = Some (data a).
Proof.
  intros Hne Hrect. unfold stack_the_datasets.
  destruct datasets as [|datasets0 rest]; [done|].
  cbn [head]. step_bind.
  assert (H0 : length datasets0 = S
               ∧ ∀ datasets00, datasets0 !! 0 = Some datasets00 →
                               length datasets00 = E).
  { pose proof Hrect as Hrect'. unfold rectangular in Hrect'.
    apply Forall_inv in Hrect' as [Hlen Hsq]. split; [done|].
    intros sq Hsq0. rewrite Forall_forall in Hsq.
    apply Hsq. by eapply list_elem_of_lookup_2. }
  destruct H0 as [HS HE]. rewrite HS.
  remember (datasets0 :: rest) as datasets eqn:Hd.
  assert (Hinner : ∀ s, s < S →
    ∃ sequence,
      (datasets00 ← datasets0 !! 0;
       mapM (λ elem,
               rows ← mapM (λ ds, sequence ← ds !! s;
                                  array ← sequence !! elem;
                                  Some (reshape_row array)) datasets;
               concatenate rows) (seq 0 (length datasets00)))
      = Some sequence
      ∧ length sequence = E
      ∧ ∀ elem, elem < E →
          sequence !! elem
          = (rows ← mapM (λ ds, sequence ← ds !! s;
                                array ← sequence !! elem;
                                Some (reshape_row array)) datasets;
             concatenate rows)).
  { intros s Hs.
    destruct (lookup_lt_is_Some_2 datasets0 0) as [datasets00 H00]; [lia|].
    rewrite H00. step_bind. rewrite (HE _ H00).
    apply mapM_seq_Some. intros elem He.
    destruct (stack_cell datasets S E V s elem) as (st & Hst & _); eauto. }
  destruct (mapM_seq_Some
    (λ s, datasets00 ← datasets0 !! 0;
          mapM (λ elem,
                  rows ← mapM (λ ds, sequence ← ds !! s;
                                     array ← sequence !! elem;
                                     Some (reshape_row array)) datasets;
                  concatenate rows) (seq 0 (length datasets00))) S)
    as (full & Hfull & Hlen & Hat).
  { intros s Hs. destruct (Hinner s Hs) as (sq & Hsq & _). eauto. }
  exists full. split; [done|]. split; [done|].
  intros s elem Hs He.
  destruct (Hinner s Hs) as (sequence & Hsq & Hsqlen & Hsqat).
  destruct (stack_cell datasets S E V s elem Hne Hrect Hs He)
    as (stacked & Hst & Hshape & Hrows).
  exists sequence, stacked.
  split; [by rewrite Hat, Hsq|]. split; [done|].
  split; [by rewrite Hsqat, Hst|]. split; [done|]. exact Hrows.
Qed.

(** X10. [stack_the_datasets] on a non-empty list of datasets of the same
    dimensions ([S] sequences of [E] arrays of [V] entries) succeeds with
    [S] sequences of [E] arrays, each of shape [(len(datasets), V)], and
    row [b] of the array at sequence [s], position [elem] is the array
    that dataset [b] holds at that place. *)
Theorem stack_rows_read_back {A} (datasets : list (list (list (NDArray A))))
    (S E V : nat) :
  datasets ≠ [] → rectangular datasets S E V →
  ∃ full_dataset,
    stack_the_datasets datasets = Some full_dataset
    ∧ length full_dataset = S
    ∧ ∀ s elem, s < S → elem < E →
        ∃ sequence stacked,
          full_dataset !! s = Some sequence
          ∧ length sequence = E
          ∧ sequence !! elem = Some stacked
          ∧ shape stacked = [length datasets; V]
          ∧ ∀ b ds sequence_b a,
              datasets !! b = Some ds → ds !! s = Some sequence_b →
              sequence_b !! elem = Some a →
              data <$> getitem stacked b = Some (data a).
Proof. apply stack_the_datasets_cells. Qed.

Lemma stack_rows_read_back_witness :
  ∃ full_dataset,
    stack_the_datasets
      [[[mkNDArray [1; 2] [1; 2]; mkNDArray [1; 2] [3; 4]]];
       [[mkNDArray [1; 2] [5; 6]; mkNDArray [1; 2] [7; 8]]]]
    = Some full_dataset
    ∧ length full_dataset = 1.
Proof.
  destruct (stack_rows_read_back
    [[[mkNDArray [1; 2] [1; 2]; mkNDArray [1; 2] [3; 4]]];
     [[mkNDArray [1; 2] [5; 6]; mkNDArray [1; 2] [7; 8]]]] 1 2 2)
    as (full & Hfull & Hlen & _).
  { discriminate. }
  { repeat constructor. }
  exists full. split; [exact Hfull|exact Hlen].
Defined.

Lemma batch_rows_cells {B} (l : list B) n batch_size :
  n = length l / batch_size → 0 < batch_size →
  length (batch_rows l n batch_size) = batch_size
  ∧ ∀ b, b < batch_size →
      ∃ row, batch_rows l n batch_size !! b = Some row
             ∧ length row = n
             ∧ ∀ s, s < n → b * n + s < length l
                            ∧ row !! s = l !! (b * n + s).
Proof.
  intros Hn HB. unfold batch_rows.
  split; [by rewrite length_fmap, length_seq|].
  intros b Hb.
  assert (Hle : b * n + n ≤ length l).
  { pose proof (Nat.Div0.mul_div_le (length l) batch_size). nia. }
  eexists. split; [by rewrite list_lookup_fmap, lookup_seq_lt|].
  split; [rewrite py_slice_length by done; lia|].
  intros s Hs. split; [lia|]. apply py_slice_lookup. lia.
Qed.

Lemma batch_rows_rectangular (ds : list (list (NDArray Qc))) n batch_size
    E V :
  n = length ds / batch_size → 0 < batch_size →
  (∀ i sequence, ds !! i = Some sequence →
     length sequence = E
     ∧ ∀ k a, sequence !! k = Some a → length (data a) = V) →
  rectangular (batch_rows ds n batch_size) n E V.
Proof.
  intros Hn HB Hds. destruct (batch_rows_cells ds n batch_size Hn HB)
    as [Hlen Hrows].
  apply Forall_forall. intros row Hrow.
  apply list_elem_of_lookup in Hrow as [b Hb].
  assert (Hbl : b < batch_size).
  { apply lookup_lt_Some in Hb. lia. }
  destruct (Hrows b Hbl) as (row' & Hb' & Hrl & Hat).
  rewrite Hb in Hb'. injection Hb' as <-.
  split; [done|]. apply Forall_forall. intros sequence Hsq.
  apply list_elem_of_lookup in Hsq as [s Hs].
  assert (Hsl : s < n) by (apply lookup_lt_Some in Hs; lia).
  destruct (Hat s Hsl) as [_ Hrs]. rewrite Hs in Hrs. symmetry in Hrs.
  destruct (Hds _ _ Hrs) as [HE Hcells]. split; [done|].
  apply Forall_forall. intros a Ha.
  apply list_elem_of_lookup in Ha as [k Hk]. by eapply Hcells.
Qed.

Lemma one_hot_row_data_length vocab_size x :
  length (data (one_hot_row vocab_size x)) = vocab_size.
Proof. cbn. by rewrite length_insert, length_replicate. Qed.

(** Cells of the stacked tensor built from encoded sequences [encoded]
    whose element [k] of sequence [i] encodes character
    [i * seq_length + off + k]. *)
Lemma stacked_cells (time_numerical : list nat) vocab_size seq_length
    batch_size off (encoded : list (list (NDArray Qc))) n :
  0 < batch_size → n = length encoded / batch_size →
  (∀ i, i < length encoded →
     ∃ sequence,
       encoded !! i = Some sequence ∧ length sequence = seq_length
       ∧ ∀ k, k < seq_length →
           ∃ x, time_numerical !! (i * seq_length + off + k) = Some x
                ∧ sequence !! k = Some (one_hot_row vocab_size x)) →
  ∃ full,
    stack_the_datasets (batch_rows encoded n batch_size) = Some full
    ∧ length full = n
    ∧ ∀ s k b, s < n → k < seq_length → b < batch_size →
        ∃ x stacked,
          time_numerical !! ((b * n + s) * seq_length + off + k) = Some x
          ∧ (full !! s ≫= (.!! k)) = Some stacked
          ∧ shape stacked = [batch_size; vocab_size]
          ∧ data <$> getitem stacked b
            = Some (data (one_hot_row vocab_size x)).
Proof.
  intros HB Hn Henc.
  destruct (batch_rows_cells encoded n batch_size Hn HB) as [Hlen Hrows].
  destruct (stack_the_datasets_cells (batch_rows encoded n batch_size)
              n seq_length vocab_size) as (full & Hfull & Hfl & Hcells).
  { intros Hnil. apply (f_equal length) in Hnil. simpl in Hnil. lia. }
  { apply batch_rows_rectangular; [done|done|].
    intros i sequence Hi.
    destruct (Henc i) as (sequence' & Hi' & Hsl & Hat);
      [by eapply lookup_lt_Some|].
    rewrite Hi in Hi'. injection Hi' as <-. split; [done|].
    intros k a Hk.
    destruct (Hat k) as (x & _ & Hx); [apply lookup_lt_Some in Hk; lia|].
    rewrite Hk in Hx. injection Hx as Ha. rewrite Ha.
    apply one_hot_row_data_length. }
  exists full. split; [done|]. split; [done|].
  intros s k b Hs Hk Hb.
  destruct (Hcells s k Hs Hk) as (sequence & stacked & Hfs & _ & Hsk & Hsh & Hr).
  destruct (Hrows b Hb) as (row & Hrow & _ & Hat).
  destruct (Hat s Hs) as [Hlt Hrs].
  destruct (Henc (b * n + s) Hlt) as (input & Hin & _ & Hink).
  destruct (Hink k Hk) as (x & Hx & Hxk).
  exists x, stacked. split; [done|].
  split; [by rewrite Hfs; simpl; rewrite Hsk|].
  split; [by rewrite Hsh, Hlen|].
  apply (Hr b row input); [done| |done]. by rewrite Hrs.
Qed.

(** X11. The notebook's final sanity check, for every text.  With a positive
    [seq_length] and [batch_size] and indices below [vocab_size],
    [training_data] and [training_labels] are built without error and
    have [((len - 1) // seq_length) // batch_size] sequences each; row [b]
    of element [k] of sequence [s] encodes the character at position
    [(b * n + s) * seq_length + k] in the inputs and the character right
    after it in the labels. *)
Theorem training_labels_follow_training_data (time_numerical : list nat)
    (vocab_size seq_length batch_size : nat) :
  0 < seq_length → 0 < batch_size →
  Forall (λ idx, idx < vocab_size) time_numerical →
  let n := num_sequences time_numerical seq_length / batch_size in
  ∃ X Y,
    training_data time_numerical vocab_size seq_length batch_size = Some X
    ∧ training_labels time_numerical vocab_size seq_length batch_size
      = Some Y
    ∧ length X = n ∧ length Y = n
    ∧ ∀ s k b, s < n → k < seq_length → b < batch_size →
        ∃ x y input label,
          time_numerical !! ((b * n + s) * seq_length + k) = Some x
          ∧ time_numerical !! ((b * n + s) * seq_length + k + 1) = Some y
          ∧ (X !! s ≫= (.!! k)) = Some input
          ∧ (Y !! s ≫= (.!! k)) = Some label
          ∧ data <$> getitem input b = Some (data (one_hot_row vocab_size x))
          ∧ data <$> getitem label b
            = Some (data (one_hot_row vocab_size y)).
Proof.
  intros Hq HB Hrange n.
  destruct (dataset_labels_cells time_numerical vocab_size seq_length
              Hq Hrange) as (ds & ls & Hds & Hls & Hdl & Hll & Hcells).
  unfold training_data, training_labels. rewrite Hds, Hls. step_bind.
  unfold sequences_per_batch_row. rewrite decide_False by lia. step_bind.
  rewrite Hdl. fold n.
  destruct (stacked_cells time_numerical vocab_size seq_length batch_size 0
              ds n HB) as (X & HX & HXl & HXc).
  { by rewrite Hdl. }
  { intros i Hi. rewrite Hdl in Hi.
    destruct (Hcells i Hi) as (input & label & Hin & Hlab & Hil & Hll' & Hat).
    exists input. split; [done|]. split; [done|].
    intros k Hk. destruct (Hat k Hk) as (x & y & Hx & Hy & Hxk & Hyk).
    exists x. by rewrite Nat.add_0_r. }
  destruct (stacked_cells time_numerical vocab_size seq_length batch_size 1
              ls n HB) as (Y & HY & HYl & HYc).
  { by rewrite Hll. }
  { intros i Hi. rewrite Hll in Hi.
    destruct (Hcells i Hi) as (input & label & Hin & Hlab & Hil & Hll' & Hat).
    exists label. split; [done|]. split; [done|].
    intros k Hk. destruct (Hat k Hk) as (x & y & Hx & Hy & Hxk & Hyk).
    exists y. split; [|done].
    by replace (i * seq_length + 1 + k) with (i * seq_length + k + 1) by lia. }
  exists X, Y. split; [done|]. split; [done|]. split; [done|]. split; [done|].
  intros s k b Hs Hk Hb.
  destruct (HXc s k b Hs Hk Hb) as (x & input & Hx & Hin & _ & Hinb).
  destruct (HYc s k b Hs Hk Hb) as (y & label & Hy & Hlab & _ & Hlabb).
  exists x, y, input, label. rewrite Nat.add_0_r in Hx.
  split; [done|]. split; [|done].
  by replace ((b * n + s) * seq_length + k + 1)
    with ((b * n + s) * seq_length + 1 + k) by lia.
Qed.

Lemma training_labels_follow_training_data_witness :
  ∃ X Y,
    training_data [0; 1; 2; 0; 1; 2; 0; 1; 2] 3 2 2 = Some X
    ∧ training_labels [0; 1; 2; 0; 1; 2; 0; 1; 2] 3 2 2 = Some Y
    ∧ length X = 2 ∧ length Y = 2.
Proof.
  destruct (training_labels_follow_training_data
              [0; 1; 2; 0; 1; 2; 0; 1; 2] 3 2 2)
    as (X & Y & HX & HY & HXl & HYl & _).
  { lia. }
  { lia. }
  { repeat constructor. }
  exists X, Y. repeat split; done.
Defined.

End DataPrepProps.

(** ** The language-model data pipeline and its evaluation *)

Section PipelineProps.
Import Tensor LanguageModel.

Lemma batchify_transposed {A} (tokens : NDArray A) n b :
  shape tokens = [n] → length (data tokens) = n → 1 ≤ b → b ≤ n →
  ∃ batched,
    batchify tokens b = Some batched
    ∧ shape batched = [n / b; b]
    ∧ length (data batched) = n / b * b
    ∧ ∀ i j, i < n / b → j < b →
        data batched !! (i * b + j) = data tokens !! (j * (n / b) + i).
Proof.
  intros Hshape Hlen Hb1 Hbn.
  pose proof (Nat.Div0.mul_div_le n b) as Hle.
  unfold batchify. rewrite Hshape. cbn [head]. step_bind.
  rewrite decide_False by lia.
  unfold slice at 1. rewrite Hshape, decide_True by lia. step_bind.
  unfold reshape at 1. cbn [data].
  change (numel []) with 1. change (0 * 1) with 0.
  rewrite drop_0, Nat.sub_0_r, Nat.mul_1_r.
  rewrite decide_True
    by (rewrite length_take, Hlen; unfold numel; simpl; lia).
  step_bind.
  destruct (transpose _) as [batched|] eqn:Ht; [|done].
  apply transpose_lookup with (r := b) (c := n / b) in Ht
      as (Hs & Hl & Hat); [|done|cbn [data]; rewrite length_take; lia].
  exists batched. split; [done|]. split; [done|].
  split; [by rewrite Hl|].
  intros i j Hi Hj. rewrite (Hat j i) by done. cbn [data].
  apply lookup_take_lt. nia.
Qed.

Lemma get_batch_rows {A} (source : NDArray A) L b i :
  shape source = [L; b] → length (data source) = L * b → i < L - 1 →
  ∃ batch target,
    get_batch source i = Some (batch, target)
    ∧ shape batch = [args_bptt `min` (L - 1 - i); b]
    ∧ length (data target) = args_bptt `min` (L - 1 - i) * b
    ∧ ∀ k j, k < args_bptt `min` (L - 1 - i) → j < b →
        at2 batch k j = data source !! ((i + k) * b + j)
        ∧ data target !! (k * b + j) = data source !! ((i + 1 + k) * b + j).
Proof.
  intros Hshape Hlen Hi. set (s := args_bptt `min` (L - 1 - i)).
  assert (Hs : i + 1 + s ≤ L) by (unfold s; lia).
  unfold get_batch. rewrite Hshape. cbn [head]. step_bind. fold s.
  rewrite (slice_rows source L b) by (done || lia). step_bind.
  rewrite (slice_rows source L b) by (done || lia). step_bind.
  eexists _, _. split; [done|]. cbn [shape data flatten].
  replace (i + s - i) with s by lia.
  replace (i + 1 + s - (i + 1)) with s by lia.
  split; [done|]. split.
  { rewrite length_take, length_drop, Hlen. nia. }
  intros k j Hk Hj. unfold at2. cbn [shape data].
  rewrite decide_True by lia. by rewrite !rows_lookup.
Qed.

(** X12. From the token stream to a training pair.  For [n] tokens batchified
    with [1 <= b <= n] into [n // b] rows and an offset [i < n // b - 1],
    the batch [get_batch] cuts holds at step [k], column [j] the token at
    position [j * (n // b) + i + k] of the stream, and the target at the
    same step and column is the token right after it. *)
Theorem target_is_next_token {A} (tokens : NDArray A) (n b i : nat) :
  shape tokens = [n] → length (data tokens) = n → 1 ≤ b → b ≤ n →
  i < n / b - 1 →
  ∃ batched batch target,
    batchify tokens b = Some batched
    ∧ get_batch batched i = Some (batch, target)
    ∧ shape batch = [args_bptt `min` (n / b - 1 - i); b]
    ∧ ∀ k j, k < args_bptt `min` (n / b - 1 - i) → j < b →
        ∃ x y,
          data tokens !! (j * (n / b) + i + k) = Some x
          ∧ data tokens !! (j * (n / b) + i + k + 1) = Some y
          ∧ at2 batch k j = Some x
          ∧ data target !! (k * b + j) = Some y.
Proof.
  intros Hshape Hlen Hb1 Hbn Hi.
  destruct (batchify_transposed tokens n b Hshape Hlen Hb1 Hbn)
    as (batched & Hb & Hbs & Hbl & Hbat).
  destruct (get_batch_rows batched (n / b) b i Hbs Hbl Hi)
    as (batch & target & Hg & Hgs & _ & Hgat).
  exists batched, batch, target. split; [done|]. split; [done|].
  split; [done|]. intros k j Hk Hj.
  destruct (Hgat k j Hk Hj) as [Hd Ht].
  rewrite Hbat in Hd, Ht by lia.
  pose proof (Nat.Div0.mul_div_le n b) as Hle.
  destruct (lookup_lt_is_Some_2 (data tokens) (j * (n / b) + i + k))
    as [x Hx]; [nia|].
  destruct (lookup_lt_is_Some_2 (data tokens) (j * (n / b) + i + k + 1))
    as [y Hy]; [nia|].
  exists x, y. split; [done|]. split; [done|]. split.
  - rewrite Hd, <- Hx. f_equal. lia.
  - rewrite Ht, <- Hy. f_equal. lia.
Qed.

Lemma target_is_next_token_witness :
  ∃ batched batch target,
    batchify (array1 [10; 11; 12; 13; 14; 15; 16]) 2 = Some batched
    ∧ get_batch batched 0 = Some (batch, target)
    ∧ shape batch = [2; 2].
Proof.
  destruct (target_is_next_token (array1 [10; 11; 12; 13; 14; 15; 16]) 7 2 0)
    as (batched & batch & target & Hb & Hg & Hs & _);
    [reflexivity|reflexivity|lia|lia|simpl; lia|].
  exists batched, batch, target. split; [exact Hb|]. split; [exact Hg|].
  exact Hs.
Defined.

Lemma range_by_count stop step :
  0 < step →
  stop ≤ (stop + step - 1) / step * step
  ∧ ∀ k, k < (stop + step - 1) / step → k * step < stop.
Proof.
  intros Hstep.
  pose proof (Nat.div_mod_eq (stop + step - 1) step) as Hdm.
  pose proof (Nat.mod_upper_bound (stop + step - 1) step) as Hr.
  split; [nia|]. intros k Hk. nia.
Qed.

Section EvalMore.
Context {H : Type}.
Variable forward_loss : H → NDArray nat → NDArray nat → H * list Qc.
Hypothesis one_loss_per_target :
  ∀ hidden batch target,
    length (forward_loss hidden batch target).2 = length (data target).

(** After [k] batches the loss vectors cover the first
    [min(k * args_bptt, L - 1)] target rows. *)
Lemma eval_losses_prefix (source : NDArray nat) L b hidden k :
  shape source = [L; b] → length (data source) = L * b →
  (∀ k', k' < k → k' * args_bptt < L - 1) →
  ∃ Ls hidden',
    foldl (λ acc i,
             '(Ls, hidden) ← acc;
             '(batch, target) ← get_batch source i;
             let '(hidden, L) := forward_loss hidden batch target in
             Some (Ls ++ [L], hidden))
          (Some ([], hidden)) ((λ j, j * args_bptt) <$> seq 0 k)
    = Some (Ls, hidden')
    ∧ length Ls = k
    ∧ length (concat Ls) = (k * args_bptt) `min` (L - 1) * b.
Proof.
  intros Hshape Hlen. induction k as [|k IH]; intros Hk.
  - exists [], hidden. simpl. split; [done|]. split; [done|]. lia.
  - destruct IH as (Ls & hidden' & Hfold & HLs & Hcount).
    { intros k' Hk'. apply Hk. lia. }
    rewrite seq_S, fmap_app, foldl_app, Hfold. change (0 + k) with k.
    cbn [fmap list_fmap foldl]. step_bind.
    destruct (get_batch_rows source L b (k * args_bptt))
      as (batch & target & -> & _ & Htl & _); [done|done| |].
    { specialize (Hk k). lia. }
    step_bind.
    pose proof (one_loss_per_target hidden' batch target) as Hloss.
    destruct (forward_loss hidden' batch target) as [hidden'' loss].
    simpl in Hloss.
    exists (Ls ++ [loss]), hidden''. split; [done|].
    split; [rewrite length_app; simpl; lia|].
    rewrite concat_app, length_app. cbn [concat]. rewrite app_nil_r.
    rewrite Hcount, Hloss, Htl. specialize (Hk k ltac:(lia)).
    replace ((S k * args_bptt) `min` (L - 1))
      with (k * args_bptt + args_bptt `min` (L - 1 - k * args_bptt)) by lia.
    rewrite (Nat.min_l (k * args_bptt)) by lia.
    by rewrite Nat.mul_add_distr_r.
Qed.

End EvalMore.

(** X13. [eval] scores every row but the first exactly once.  For a source of
    [L] rows of width [b >= 1] and a model that returns one loss per
    target: with fewer than two rows no prediction is made and the final
    division fails; with two rows or more the batches are cut without
    error, there are [ceil((L - 1) / args_bptt)] of them, they hold
    [(L - 1) * b] losses in all, and [eval] returns their sum divided by
    [(L - 1) * b]. *)
Theorem eval_scores_every_row_once {H : Type}
    (forward_loss : H → NDArray nat → NDArray nat → H * list Qc)
    (source : NDArray nat) (L b : nat) (hidden : H) :
  (∀ hidden batch target,
     length (forward_loss hidden batch target).2 = length (data target)) →
  shape source = [L; b] → length (data source) = L * b → 1 ≤ b →
  (L ≤ 1 → eval forward_loss hidden source = None)
  ∧ (2 ≤ L →
     ∃ Ls,
       eval_losses forward_loss hidden source = Some Ls
       ∧ length Ls = (L - 1 + args_bptt - 1) / args_bptt
       ∧ length (concat Ls) = (L - 1) * b
       ∧ eval forward_loss hidden source
         = Some (sum_L (concat Ls) / Qc_of_nat ((L - 1) * b))%Qc).
Proof.
  intros Hloss Hshape Hlen Hb.
  destruct (range_by_count (L - 1) args_bptt) as [Hcover Hbelow];
    [unfold args_bptt; lia|].
  destruct (eval_losses_prefix forward_loss Hloss source L b hidden
              ((L - 1 + args_bptt - 1) / args_bptt) Hshape Hlen Hbelow)
    as (Ls & hidden' & Hfold & HLs & Hcount).
  assert (Hlosses : eval_losses forward_loss hidden source = Some Ls).
  { unfold eval_losses. rewrite Hshape. cbn [head]. step_bind.
    unfold range_by. by rewrite Hfold. }
  rewrite Nat.min_r in Hcount by lia.
  split.
  - intros HL. rewrite eval_average, Hlosses. step_bind.
    rewrite decide_True; [done|]. rewrite Hcount. nia.
  - intros HL. exists Ls. split; [done|]. split; [done|]. split; [done|].
    rewrite eval_average, Hlosses. step_bind.
    rewrite decide_False by (rewrite Hcount; nia). by rewrite Hcount.
Qed.

Lemma eval_scores_every_row_once_witness :
  eval unit_loss () (mkNDArray [1; 2] [7; 8]) = None
  ∧ ∃ Ls, eval_losses unit_loss () (mkNDArray [3; 2] [1; 2; 3; 4; 5; 6])
          = Some Ls
          ∧ length (concat Ls) = 4.
Proof.
  split.
  - apply (eval_scores_every_row_once unit_loss (mkNDArray [1; 2] [7; 8]) 1 2);
      [by intros hidden batch target; simpl; rewrite length_replicate
      |reflexivity|reflexivity|lia|lia].
  - destruct (eval_scores_every_row_once unit_loss
                (mkNDArray [3; 2] [1; 2; 3; 4; 5; 6]) 3 2 ()) as [_ Hrun];
      [by intros hidden batch target; simpl; rewrite length_replicate
      |reflexivity|reflexivity|lia|].
    destruct Hrun as (Ls & HLs & _ & Hcount & _); [lia|].
    exists Ls. split; [exact HLs|exact Hcount].
Defined.

(** X14. [eval] returns the sum of the losses of all the batches it visits
    divided by their number, and fails in the division when there is
    none (or when a batch cannot be cut). *)
Theorem eval_is_average_of_losses {H : Type}
    (forward_loss : H → NDArray nat → NDArray nat → H * list Qc)
    (hidden : H) (data_source : NDArray nat) :
  eval forward_loss hidden data_source
  = Ls ← eval_losses forward_loss hidden data_source;
    if decide (length (concat Ls) = 0) then None
    else Some (sum_L (concat Ls) / Qc_of_nat (length (concat Ls)))%Qc.
Proof. apply eval_average. Qed.

Lemma imap_pair_fmap_seq {B} (g : nat → B) n :
  imap pair (g <$> seq 0 n) = (λ j, (j, g j)) <$> seq 0 n.
Proof.
  apply list_eq. intros i.
  rewrite list_lookup_imap, !list_lookup_fmap.
  destruct (decide (i < n)) as [Hi|Hi].
  - by rewrite lookup_seq_lt.
  - by rewrite lookup_seq_ge by lia.
Qed.

Lemma log_lines_step k :
  k / args_log_interval
  = (k - 1) / args_log_interval
    + (if decide (k mod args_log_interval = 0 ∧ 0 < k) then 1 else 0).
Proof.
  unfold args_log_interval.
  pose proof (Nat.div_mod_eq k 100).
  pose proof (Nat.div_mod_eq (k - 1) 100).
  pose proof (Nat.mod_upper_bound k 100).
  pose proof (Nat.mod_upper_bound (k - 1) 100).
  case_decide; lia.
Qed.

Section TrainLog.
Context {H : Type}.
Variable train_step : H → NDArray nat → NDArray nat → H * list Qc.

Lemma train_log_prefix (train_data : NDArray nat) L b hidden k :
  shape train_data = [L; b] → length (data train_data) = L * b →
  (∀ k', k' < k → k' * args_bptt < L - 1) →
  ∃ total_L printed hidden',
    foldl (λ acc bi,
             '(total_L, printed, hidden) ← acc;
             '(data, target) ← get_batch train_data bi.2;
             let '(hidden, L) := train_step hidden data target in
             let total_L := (total_L + sum_L L)%Qc in
             if decide (bi.1 mod args_log_interval = 0 ∧ 0 < bi.1)
             then
               let cur_L :=
                 (total_L / Qc_of_nat args_bptt
                  / Qc_of_nat args_batch_size
                  / Qc_of_nat args_log_interval)%Qc in
               Some (0%Qc, printed ++ [cur_L], hidden)
             else Some (total_L, printed, hidden))
          (Some (0%Qc, [], hidden))
          ((λ j, (j, j * args_bptt)) <$> seq 0 k)
    = Some (total_L, printed, hidden')
    ∧ length printed = (k - 1) / args_log_interval.
Proof.
  intros Hshape Hlen. induction k as [|k IH]; intros Hk.
  - exists 0%Qc, [], hidden. split; [done|]. reflexivity.
  - destruct IH as (total_L & printed & hidden' & Hfold & Hcount).
    { intros k' Hk'. apply Hk. lia. }
    rewrite seq_S, fmap_app, foldl_app, Hfold. change (0 + k) with k.
    cbn [fmap list_fmap foldl fst snd]. step_bind.
    destruct (get_batch_rows train_data L b (k * args_bptt))
      as (batch & target & -> & _); [done|done| |].
    { specialize (Hk k). lia. }
    step_bind.
    destruct (train_step hidden' batch target) as [hidden'' loss].
    replace (S k - 1) with k by lia. rewrite log_lines_step.
    case_decide.
    + eexists _, _, _. split; [done|]. rewrite length_app, Hcount. done.
    + eexists _, _, _. split; [done|]. rewrite Hcount. lia.
Qed.

End TrainLog.

(** X15. The batch loop of an epoch of [train()] cuts every batch without
    error, whatever the model does, and prints one log line for each
    batch whose number is a positive multiple of [args_log_interval]:
    with [nb = ceil((L - 1) / args_bptt)] batches that is
    [(nb - 1) // args_log_interval] lines. *)
Theorem train_log_line_count {H : Type}
    (train_step : H → NDArray nat → NDArray nat → H * list Qc)
    (train_data : NDArray nat) (L b : nat) (hidden : H) :
  shape train_data = [L; b] → length (data train_data) = L * b →
  ∃ printed,
    train_epoch_log train_step hidden train_data = Some printed
    ∧ length printed
      = ((L - 1 + args_bptt - 1) / args_bptt - 1) / args_log_interval.
Proof.
  intros Hshape Hlen.
  destruct (range_by_count (L - 1) args_bptt) as [_ Hbelow];
    [unfold args_bptt; lia|].
  destruct (train_log_prefix train_step train_data L b hidden
              ((L - 1 + args_bptt - 1) / args_bptt) Hshape Hlen Hbelow)
    as (total_L & printed & hidden' & Hfold & Hcount).
  exists printed. split; [|done].
  unfold train_epoch_log. rewrite Hshape. cbn [head]. step_bind.
  unfold range_by.
  assert (Heq : imap pair ((λ k, k * args_bptt)
                           <$> seq 0 ((L - 1 + args_bptt - 1) / args_bptt))
                = (λ j, (j, j * args_bptt))
                  <$> seq 0 ((L - 1 + args_bptt - 1) / args_bptt))
    by apply imap_pair_fmap_seq.
  rewrite Heq. cbn [mbind option_bind] in Hfold. by rewrite Hfold.
Qed.

Lemma train_log_line_count_witness :
  ∃ printed,
    train_epoch_log unit_loss () (mkNDArray [3; 2] [1; 2; 3; 4; 5; 6])
    = Some printed
    ∧ length printed = 0.
Proof.
  destruct (train_log_line_count unit_loss
              (mkNDArray [3; 2] [1; 2; 3; 4; 5; 6]) 3 2 ())
    as (printed & Hrun & Hcount); [reflexivity|reflexivity|].
  exists printed. split; [exact Hrun|exact Hcount].
Defined.

End PipelineProps.

(** ** Sampling *)

Section SamplingProps.
Import Tensor CharCodec CharRNN Sampling.
Context {T : Type} `{NDArith T} `{NDFun T} {G : Type}.
Variable of_array : NDArray Qc → T.
Variable nd_zeros : list nat → T.
Variable first_row : T → T.
Variable random_choice : G → nat → T → option (nat * G).
Variable character_list : list ascii.
Variable num_hidden : nat.

Lemma simple_rnn_outputs_length p (inputs : list T) state temperature :
  length (SimpleRNN.simple_rnn p inputs state temperature).1 = length inputs.
Proof.
  rewrite simple_rnn_unfolds. cbn [fst]. by rewrite length_fmap, length_seq.
Qed.

Lemma foldl_option_None {B C} (f : option B → C → option B) (l : list C) :
  (∀ x, f None x = None) → foldl f None l = None.
Proof. intros Hf. induction l as [|x l IH]; [done|]. simpl. by rewrite Hf. Qed.

Lemma string_app_snoc s c t :
  (s +:+ String c EmptyString) +:+ t = s +:+ String c t.
Proof.
  induction s as [|c' s IH]; [done|].
  change ((String c' s +:+ String c "") +:+ t)
    with (String c' ((s +:+ String c "") +:+ t)).
  change (String c' s +:+ String c t) with (String c' (s +:+ String c t)).
  by rewrite IH.
Qed.

Lemma string_app_empty s : s +:+ EmptyString = s.
Proof.
  induction s as [|c s IH]; [done|].
  change (String c s +:+ "") with (String c (s +:+ "")). by rewrite IH.
Qed.

Lemma sample_loop_returns p temperature k :
  ∀ start string (input : list (NDArray Qc)) state g string' input' state' g',
    foldl (λ acc _,
             '(string, input, sample_state, g) ← acc;
             let '(outputs, sample_state) :=
               SimpleRNN.simple_rnn p (of_array <$> input) sample_state
                 temperature in
             output ← last outputs;
             '(choice, g) ← random_choice g 77 (first_row output);
             c ← character_list !! choice;
             input ← one_hots [choice] (length character_list);
             Some (string +:+ String c EmptyString, input, sample_state, g))
          (Some (string, input, state, g)) (seq start k)
    = Some (string', input', state', g') →
    (0 < k → input ≠ [])
    ∧ ∃ suffix, string' = string +:+ suffix ∧ String.length suffix = k
        ∧ ∀ c, c ∈ String.list_ascii_of_string suffix → c ∈ character_list.
Proof.
  induction k as [|k IH];
    intros start string input state g string' input' state' g' Hloop.
  - simpl in Hloop. injection Hloop as <- _ _ _. split; [lia|].
    exists EmptyString. rewrite string_app_empty.
    split; [done|]. split; [done|]. by intros c Hc%elem_of_nil.
  - cbn [seq foldl] in Hloop. cbn [mbind option_bind] in Hloop.
    pose proof (simple_rnn_outputs_length p (of_array <$> input) state
                  temperature) as Hlen.
    destruct (SimpleRNN.simple_rnn p (of_array <$> input) state temperature)
      as [outputs state1]. cbn [fst] in Hlen. rewrite length_fmap in Hlen.
    destruct (last outputs) as [output|] eqn:Hlast;
      cbn [mbind option_bind] in Hloop;
      [|rewrite foldl_option_None in Hloop by done; discriminate].
    destruct (random_choice g 77 (first_row output)) as [[choice g1]|];
      cbn [mbind option_bind] in Hloop;
      [|rewrite foldl_option_None in Hloop by done; discriminate].
    destruct (character_list !! choice) as [c|] eqn:Hc;
      cbn [mbind option_bind] in Hloop;
      [|rewrite foldl_option_None in Hloop by done; discriminate].
    destruct (one_hots [choice] (length character_list)) as [input1|];
      cbn [mbind option_bind] in Hloop;
      [|rewrite foldl_option_None in Hloop by done; discriminate].
    apply IH in Hloop as (_ & suffix & -> & Hsuffix & Hchars).
    split.
    + intros _ ->. simpl in Hlen. destruct outputs; done.
    + exists (String c suffix). split; [apply string_app_snoc|].
      split; [simpl; by rewrite Hsuffix|].
      intros c' Hc'. simpl in Hc'.
      apply elem_of_cons in Hc' as [->|Hc']; [|by apply Hchars].
      by eapply list_elem_of_lookup_2.
Qed.

(** X16. What [sample] does with its prefix.  A prefix with a character
    outside [character_list] makes the dictionary lookup fail before
    anything else runs.  With an empty prefix and at least one character
    to generate the network returns no output and [outputs[-1]] fails.
    With no character to generate, a prefix of known characters comes
    back as it is and nothing is drawn.  Whenever [sample] returns, every
    character of the prefix is in [character_list], the prefix is not
    empty unless [num_chars] is zero, and the result is the prefix
    followed by exactly [num_chars] characters, each of them taken from
    [character_list]. *)
Theorem sample_extends_prefix_when_it_returns (p : SimpleRNN.params)
    (prefix : string) (num_chars : nat) (temperature : Qc) (g : G) :
  ((∃ c, c ∈ String.list_ascii_of_string prefix ∧ c ∉ character_list) →
   sample of_array nd_zeros first_row random_choice character_list
     num_hidden p prefix num_chars temperature g = None)
  ∧ (prefix = EmptyString → 0 < num_chars →
     sample of_array nd_zeros first_row random_choice character_list
       num_hidden p prefix num_chars temperature g = None)
  ∧ ((∀ c, c ∈ String.list_ascii_of_string prefix → c ∈ character_list) →
     0 < num_hidden → num_chars = 0 →
     sample of_array nd_zeros first_row random_choice character_list
       num_hidden p prefix num_chars temperature g = Some (prefix, g))
  ∧ (∀ string g',
       sample of_array nd_zeros first_row random_choice character_list
         num_hidden p prefix num_chars temperature g = Some (string, g') →
       (∀ c, c ∈ String.list_ascii_of_string prefix → c ∈ character_list)
       ∧ (0 < num_chars → prefix ≠ EmptyString)
       ∧ ∃ suffix,
           string = prefix +:+ suffix
           ∧ String.length suffix = num_chars
           ∧ ∀ c, c ∈ String.list_ascii_of_string suffix →
                  c ∈ character_list).
Proof.
  split; [|split; [|split]].
  - intros (c & Hc & Hnot). unfold sample, numerical.
    destruct (mapM _ (String.list_ascii_of_string prefix))
      as [ixs|] eqn:Hixs; [|done].
    exfalso. apply Hnot.
    by apply (proj1 (numerical_Some_iff character_list
                       (String.list_ascii_of_string prefix))); [eauto|].
  - intros -> Hn. destruct num_chars as [|n]; [lia|].
    unfold sample.
    assert (Hnum : numerical character_list EmptyString = Some [])
      by reflexivity.
    rewrite Hnum. step_bind.
    assert (Hone : one_hots [] (length character_list) = Some [])
      by reflexivity.
    rewrite Hone. step_bind. cbn [seq foldl].
    match goal with
    | |- foldl ?F ?a ?l ≫= _ = None =>
        assert (Ha : a = None) by reflexivity; rewrite Ha;
        rewrite (foldl_option_None F) by reflexivity
    end.
    reflexivity.
  - intros Hprefix _ ->.
    destruct (numerical_decodes character_list _ Hprefix)
      as (ixs & Hixs & Hdec).
    unfold sample, numerical. rewrite Hixs. step_bind.
    rewrite one_hots_in_range by by eapply indices_in_range.
    reflexivity.
  - intros string g' Hsample. unfold sample, numerical in Hsample.
    destruct (mapM _ (String.list_ascii_of_string prefix))
      as [ixs|] eqn:Hixs; [|done].
    cbn [mbind option_bind] in Hsample.
    destruct (one_hots ixs (length character_list)) as [input|] eqn:Hone;
      [|done].
    cbn [mbind option_bind] in Hsample.
    match type of Hsample with
    | ?x ≫= _ = _ => destruct x as [[[[string1 input1] state1] g1]|] eqn:Hloop
    end; [|done].
    cbn in Hsample. injection Hsample as <- <-.
    apply sample_loop_returns in Hloop as (Hinput & Hsuffix).
    split; [|split; [|done]].
    + apply numerical_Some_iff. rewrite Hixs. eauto.
    + intros Hn ->. apply Hinput; [done|].
      cbn in Hixs. injection Hixs as <-. cbn in Hone. by injection Hone as <-.
Qed.

End SamplingProps.

Section SamplingRun.
Import CharRNN Sampling.

Lemma sample_extends_prefix_when_it_returns_witness :
  Sampling.sample Sampling.Leaf Sampling.Zeros (Sampling.Call1 "row0")
    Sampling.counter_choice ["T"; "h"; "e"]%char 2
    (SimpleRNN.mkParams (Sampling.Zeros [3; 2]) (Sampling.Zeros [2; 2])
       (Sampling.Zeros [2]) (Sampling.Zeros [2; 3]) (Sampling.Zeros [3]))
    "The" 0 1%Qc 40 = Some ("The", 40)
  ∧ Sampling.sample Sampling.Leaf Sampling.Zeros (Sampling.Call1 "row0")
      Sampling.counter_choice ["T"; "h"; "e"]%char 2
      (SimpleRNN.mkParams (Sampling.Zeros [3; 2]) (Sampling.Zeros [2; 2])
         (Sampling.Zeros [2]) (Sampling.Zeros [2; 3]) (Sampling.Zeros [3]))
      "Then" 0 1%Qc 40 = None
  ∧ Sampling.sample Sampling.Leaf Sampling.Zeros (Sampling.Call1 "row0")
      Sampling.counter_choice ["T"; "h"; "e"]%char 2
      (SimpleRNN.mkParams (Sampling.Zeros [3; 2]) (Sampling.Zeros [2; 2])
         (Sampling.Zeros [2]) (Sampling.Zeros [2; 3]) (Sampling.Zeros [3]))
      "The" 2 1%Qc 0 = Some ("TheTh", 2)
  ∧ ∃ suffix, "TheTh" = "The" +:+ suffix ∧ String.length suffix = 2.
Proof.
  destruct (sample_extends_prefix_when_it_returns Sampling.Leaf
              Sampling.Zeros (Sampling.Call1 "row0") Sampling.counter_choice
              ["T"; "h"; "e"]%char 2
              (SimpleRNN.mkParams (Sampling.Zeros [3; 2])
                 (Sampling.Zeros [2; 2]) (Sampling.Zeros [2])
                 (Sampling.Zeros [2; 3]) (Sampling.Zeros [3]))
              "The" 0 1%Qc 40) as (_ & _ & Hzero & _).
  destruct (sample_extends_prefix_when_it_returns Sampling.Leaf
              Sampling.Zeros (Sampling.Call1 "row0") Sampling.counter_choice
              ["T"; "h"; "e"]%char 2
              (SimpleRNN.mkParams (Sampling.Zeros [3; 2])
                 (Sampling.Zeros [2; 2]) (Sampling.Zeros [2])
                 (Sampling.Zeros [2; 3]) (Sampling.Zeros [3]))
              "Then" 0 1%Qc 40) as (Hunknown & _).
  destruct (sample_extends_prefix_when_it_returns Sampling.Leaf
              Sampling.Zeros (Sampling.Call1 "row0") Sampling.counter_choice
              ["T"; "h"; "e"]%char 2
              (SimpleRNN.mkParams (Sampling.Zeros [3; 2])
                 (Sampling.Zeros [2; 2]) (Sampling.Zeros [2])
                 (Sampling.Zeros [2; 3]) (Sampling.Zeros [3]))
              "The" 2 1%Qc 0) as (_ & _ & _ & Hreturns).
  split; [|split; [|split; [reflexivity|]]].
  - apply Hzero; [|lia|reflexivity].
    intros c Hc. apply list_elem_of_In in Hc. apply list_elem_of_In.
    simpl in Hc |- *. tauto.
  - apply Hunknown. exists "n"%char. split.
    + apply list_elem_of_In. simpl. tauto.
    + intros Hin%list_elem_of_In. simpl in Hin.
      destruct Hin as [H|[H|[H|[]]]]; discriminate H.
  - destruct (Hreturns "TheTh" 2) as (_ & _ & suffix & Hsuffix & Hlen & _);
      [reflexivity|].
    exists suffix. split; [exact Hsuffix|exact Hlen].
Defined.

End SamplingRun.
